(** * The MATH dataset: answer extraction, normalization and scoring

    A shallow embedding of [llm_box/dataset/math.py] (class [Math]) and the
    properties of its answer pipeline.

    Text.  A Python [str] is a sequence of code points.  It is modelled as a
    [list ascii], each [ascii] standing for the code point of the same number;
    the model therefore covers the texts whose code points are below 256.
    The character predicates ([isdigit], [isspace], the classes of the regular
    expressions) are the Python ones restricted to that range.

    The other module of the repository, [llmbox/model/enum.py], holds lists of
    model names and takes no part in the pipeline. *)

From Stdlib Require Import Ascii String Bool Arith Lia ZArith QArith List.
Import ListNotations.

Set Implicit Arguments.
Unset Strict Implicit.

Local Close Scope Q_scope.
Local Open Scope nat_scope.
Local Open Scope list_scope.

(** ** Python strings *)

Definition str := list ascii.

(** A literal, written as a Rocq string. *)
Definition lit (s : string) : str := list_ascii_of_string s.

Definition newline : ascii := "010"%char.
Definition dquote : ascii := "034"%char.
Definition nul : ascii := "000"%char.

Module Py.

(** [text.startswith(p)] on the remaining text. *)
Fixpoint starts_with (p s : str) : bool :=
  match p, s with
  | [], _ => true
  | _ :: _, [] => false
  | a :: p', b :: s' => Ascii.eqb a b && starts_with p' s'
  end.

(** [text.find(sub)]: the least index at which [sub] occurs.  Python returns
    the integer [-1] when there is none; here that is [None].  [i] is the
    index of the head of [s] in the whole text. *)
Fixpoint find_from (sub s : str) (i : nat) : option nat :=
  if starts_with sub s then Some i
  else match s with
       | [] => None
       | _ :: s' => find_from sub s' (S i)
       end.

Definition find (sub text : str) : option nat := find_from sub text 0.

(** [sub in text]. *)
Definition contains (sub text : str) : bool :=
  match find sub text with Some _ => true | None => false end.

(** [text[a:b]] for indices [0 <= a], [0 <= b]: empty when [b <= a], clipped
    at the end of the text. *)
Definition slice (text : str) (a b : nat) : str := firstn (b - a) (skipn a text).

(** [text.replace(old, new)] for a non-empty [old]: every occurrence of [old],
    found from left to right without overlap, becomes [new].  [k] counts the
    characters of the current occurrence that are still to be skipped. *)
Fixpoint replace_go (old new : str) (k : nat) (s : str) : str :=
  match s with
  | [] => []
  | c :: s' =>
      match k with
      | S k' => replace_go old new k' s'
      | O => if starts_with old s
             then new ++ replace_go old new (length old - 1) s'
             else c :: replace_go old new 0 s'
      end
  end.

Definition replace (old new s : str) : str := replace_go old new 0 s.

(** [text.split(sep)] for a non-empty [sep]: the pieces between the
    occurrences of [sep], found from left to right without overlap.  [cur] is
    the current piece, reversed. *)
Fixpoint split_go (sep : str) (k : nat) (cur : str) (s : str) : list str :=
  match s with
  | [] => [rev cur]
  | c :: s' =>
      match k with
      | S k' => split_go sep k' cur s'
      | O => if starts_with sep s
             then rev cur :: split_go sep (length sep - 1) [] s'
             else split_go sep 0 (c :: cur) s'
      end
  end.

Definition split (sep s : str) : list str := split_go sep 0 [] s.

(** [xs[-1]] on a list that is known to be non-empty ([split] never returns
    the empty list); the default is never used. *)
Definition last_item (xs : list str) : str := List.last xs [].

(** [c.isspace()] below code point 256: TAB..CR, FS..US, space, NEL, NBSP. *)
Definition isspace (c : ascii) : bool :=
  let n := nat_of_ascii c in
  ((9 <=? n) && (n <=? 13)) || ((28 <=? n) && (n <=? 32))
  || (n =? 133) || (n =? 160).

Fixpoint lstrip (s : str) : str :=
  match s with
  | c :: s' => if isspace c then lstrip s' else s
  | [] => []
  end.

(** [text.strip()]. *)
Definition strip (s : str) : str := rev (lstrip (rev (lstrip s))).

(** [a == b] on two strings. *)
Fixpoint str_eqb (a b : str) : bool :=
  match a, b with
  | [], [] => true
  | x :: a', y :: b' => Ascii.eqb x y && str_eqb a' b'
  | _, _ => false
  end.

(** [c.isdigit()] below code point 256: the decimal digits and the
    superscripts two, three and one (U+00B2, U+00B3, U+00B9). *)
Definition isdigit_char (c : ascii) : bool :=
  let n := nat_of_ascii c in
  ((48 <=? n) && (n <=? 57)) || (n =? 178) || (n =? 179) || (n =? 185).

(** [text.isdigit()]: false on the empty string. *)
Definition isdigit (s : str) : bool :=
  match s with
  | [] => false
  | _ => forallb isdigit_char s
  end.

End Py.

(** ** BraceExtractor: [Math.extract_inner_content] *)

Definition BOXED : str := lit "\boxed{".

(** The update of [count] in the body of the loop, on the character
    [text[end]]. *)
Definition brace_step (count : nat) (c : ascii) : nat :=
  if Ascii.eqb c "{"%char then count + 1
  else if Ascii.eqb c "}"%char then count - 1
  else count.

(** The [while count > 0 and end < len(text)] loop.  [rest] is [text[end:]],
    so that [text[end]] is its head and [end < len(text)] says that it is not
    empty.  Returns the final value of [end]. *)
Fixpoint brace_loop (rest : str) (count : nat) (end_ : nat) : nat :=
  match count, rest with
  | S _, c :: rest' => brace_loop rest' (brace_step count c) (end_ + 1)
  | _, _ => end_
  end.

Definition extract_inner_content (text : str) : option str :=
  match Py.find BOXED text with
  | None => None
  | Some i =>
      let start := i + 7 in
      let end_ := brace_loop (skipn start text) 1 start in
      Some (Py.slice text start (end_ - 1))
  end.

(** ** Regular expressions

    The fragment of Python's [re] that the source uses: literal characters,
    character classes, concatenation, alternation, capturing groups and the
    quantifiers [?], [*], [*?] and [+] on a single character class.  The
    matcher is the backtracking one of [re]: alternatives and repetition
    counts are tried in priority order, and the first way to reach the end of
    the pattern wins. *)

Module Re.

Inductive regex : Type :=
| Eps
| Chr (c : ascii)
| Cls (p : ascii -> bool)
| Cat (r1 r2 : regex)
| Alt (r1 r2 : regex)
| Opt (p : ascii -> bool)
| Star (p : ascii -> bool)
| StarLazy (p : ascii -> bool)
| Plus (p : ascii -> bool)
| Grp (n : nat) (r : regex).

(** The literal word [s]. *)
Fixpoint word (s : str) : regex :=
  match s with
  | [] => Eps
  | [c] => Chr c
  | c :: s' => Cat (Chr c) (word s')
  end.

(** [.] matches every character but the newline. *)
Definition dot (c : ascii) : bool := negb (Ascii.eqb c newline).

(** [\d] below code point 256. *)
Definition digit (c : ascii) : bool :=
  let n := nat_of_ascii c in (48 <=? n) && (n <=? 57).

(** [[-+]]. *)
Definition sign (c : ascii) : bool := Ascii.eqb c "-"%char || Ascii.eqb c "+"%char.

(** [[^{]]. *)
Definition not_lbrace (c : ascii) : bool := negb (Ascii.eqb c "{"%char).

(** The groups captured so far, most recent first. *)
Definition caps := list (nat * str).

Fixpoint group (cs : caps) (n : nat) : str :=
  match cs with
  | [] => []
  | (m, s) :: cs' => if m =? n then s else group cs' n
  end.

Section Matcher.

Variable A : Type.

(** Greedy repetition: as many characters as possible, giving them back one
    at a time while the rest of the pattern fails. *)
Fixpoint star_greedy (p : ascii -> bool) (k : str -> option A) (s : str) : option A :=
  match s with
  | c :: s' =>
      if p c then
        match star_greedy p k s' with
        | Some a => Some a
        | None => k s
        end
      else k s
  | [] => k []
  end.

(** Lazy repetition: as few characters as possible, taking one more while the
    rest of the pattern fails. *)
Fixpoint star_lazy (p : ascii -> bool) (k : str -> option A) (s : str) : option A :=
  match k s with
  | Some a => Some a
  | None =>
      match s with
      | c :: s' => if p c then star_lazy p k s' else None
      | [] => None
      end
  end.

(** [run r s cs k]: match [r] at the head of [s], then go on with [k] on
    what remains. *)
Fixpoint run (r : regex) (s : str) (cs : caps) (k : str -> caps -> option A) : option A :=
  match r with
  | Eps => k s cs
  | Chr c =>
      match s with
      | x :: s' => if Ascii.eqb x c then k s' cs else None
      | [] => None
      end
  | Cls p =>
      match s with
      | x :: s' => if p x then k s' cs else None
      | [] => None
      end
  | Cat r1 r2 => run r1 s cs (fun s' cs' => run r2 s' cs' k)
  | Alt r1 r2 =>
      match run r1 s cs k with
      | Some a => Some a
      | None => run r2 s cs k
      end
  | Opt p =>
      match s with
      | x :: s' =>
          if p x then
            match k s' cs with
            | Some a => Some a
            | None => k s cs
            end
          else k s cs
      | [] => k s cs
      end
  | Star p => star_greedy p (fun s' => k s' cs) s
  | StarLazy p => star_lazy p (fun s' => k s' cs) s
  | Plus p =>
      match s with
      | x :: s' => if p x then star_greedy p (fun s'' => k s'' cs) s' else None
      | [] => None
      end
  | Grp n r0 =>
      run r0 s cs
        (fun s' cs' => k s' ((n, firstn (length s - length s') s) :: cs'))
  end.

End Matcher.

(** A match at the head of [s]: what remains after it, and the groups. *)
Definition match_at (r : regex) (s : str) : option (str * caps) :=
  run r s [] (fun s' cs => Some (s', cs)).

(** One step of the scan of a text: a character outside every match, or a
    match (its text and its groups). *)
Inductive piece : Type :=
| Skipped (c : ascii)
| Matched (whole : str) (cs : caps).

(** The successive matches of [r] in a text, from left to right and without
    overlap, as [re.finditer] yields them.  [k] counts the characters of the
    current match that are still to be passed.  No pattern of the source can
    match the empty string (none is [nullable]); an empty match is passed
    over. *)
Fixpoint scan (r : regex) (k : nat) (s : str) : list piece :=
  match s with
  | [] => []
  | c :: s' =>
      match k with
      | S k' => scan r k' s'
      | O =>
          match match_at r s with
          | Some (rest, cs) =>
              match length s - length rest with
              | O => Skipped c :: scan r 0 s'
              | S n => Matched (firstn (S n) s) cs :: scan r n s'
              end
          | None => Skipped c :: scan r 0 s'
          end
      end
  end.

(** [re.findall] for a pattern without groups: the matched texts. *)
Definition findall (r : regex) (s : str) : list str :=
  flat_map (fun p => match p with Skipped _ => [] | Matched w _ => [w] end)
           (scan r 0 s).

(** [re.findall] for a pattern with one group: the texts of the group. *)
Definition findall_group (r : regex) (s : str) : list str :=
  flat_map (fun p => match p with Skipped _ => [] | Matched _ cs => [group cs 1] end)
           (scan r 0 s).

(** A replacement template: literal text and group references. *)
Inductive titem : Type :=
| TLit (s : str)
| TGrp (n : nat).

Definition expand (tpl : list titem) (cs : caps) : str :=
  flat_map (fun t => match t with TLit s => s | TGrp n => group cs n end) tpl.

(** [re.sub(r, tpl, s)]. *)
Definition sub (r : regex) (tpl : list titem) (s : str) : str :=
  flat_map (fun p => match p with Skipped c => [c] | Matched _ cs => expand tpl cs end)
           (scan r 0 s).

End Re.

(** ** The rule tables *)

(** [SUBSTITUTIONS]: the pairs (before, after), in the order of the source. *)
Definition SUBSTITUTIONS : list (str * str) :=
  [ (lit "an ", lit ""); (lit "a ", lit ""); (lit ".$", lit "$");
    (lit "\$", lit ""); (lit "\ ", lit "");
    (lit " ", lit ""); (lit "mbox", lit "text"); (lit ",\text{and}", lit ",");
    (lit "\text{and}", lit ","); (lit "\text{m}", lit "\text{}") ].

(** [REMOVED_EXPRESSIONS], in the order of the source.  Two entries hold a
    newline (written [\n] in a non-raw Python literal) and one is the double
    quote. *)
Definition REMOVED_EXPRESSIONS : list str :=
  [ lit "square"; lit "ways"; lit "integers"; lit "dollars"; lit "mph";
    lit "inches"; lit "ft"; lit "hours"; lit "km"; lit "units"; lit "\ldots";
    lit "sue"; lit "points"; lit "feet"; lit "minutes"; lit "digits";
    lit "cents"; lit "degrees"; lit "cm"; lit "gm"; lit "pounds"; lit "meters";
    lit "meals"; lit "edges"; lit "students"; lit "childrentickets";
    lit "multiples"; lit "\text{s}"; lit "\text{.}";
    lit "\text{" ++ newline :: lit "s}"; lit "\text{}^2"; lit "\text{}^3";
    lit "\text{" ++ newline :: lit "}"; lit "\text{}"; lit "\mathrm{th}";
    lit "^\circ"; lit "^{\circ}"; lit "\;"; lit ",\!"; lit "{,}"; [dquote];
    lit "\dots" ].

(** ** The patterns *)

Import Re.

(** [\$(.*?)\$] *)
Definition DOLLAR_SPAN : regex :=
  Cat (Chr "$") (Cat (Grp 1 (StarLazy dot)) (Chr "$")).

(** [[-+]?\d*\.\d+|\d+] *)
Definition NUMBER : regex :=
  Alt (Cat (Opt sign) (Cat (Star digit) (Cat (Chr ".") (Plus digit))))
      (Plus digit).

(** [(.*?)(\$)(.*?)(\$)(G)] where [G] is the greedy [.*]; replaced by
    [$\3$] *)
Definition FIRST_MATH : regex :=
  Cat (Grp 1 (StarLazy dot))
      (Cat (Grp 2 (Chr "$"))
           (Cat (Grp 3 (StarLazy dot))
                (Cat (Grp 4 (Chr "$")) (Grp 5 (Star dot))))).

(** [(\\text\{)(.*?)(\})] and its like for [\textbf{] and [\overline{] *)
Definition WRAPPER (name : string) : regex :=
  Cat (Grp 1 (word (lit name))) (Cat (Grp 2 (StarLazy dot)) (Grp 3 (Chr "}"))).

(** [(\\boxed\{)(G)(\})] where [G] is the greedy [.*] *)
Definition BOXED_WRAPPER : regex :=
  Cat (Grp 1 (word BOXED)) (Cat (Grp 2 (Star dot)) (Grp 3 (Chr "}"))).

(** [(frac)([^{])(.)], replaced by [frac{\2}{\3}] *)
Definition FRAC_SHORT : regex :=
  Cat (Grp 1 (word (lit "frac"))) (Cat (Grp 2 (Cls not_lbrace)) (Grp 3 (Cls dot))).

(** [(sqrt)([^{])], replaced by [sqrt{\2}] *)
Definition SQRT_SHORT : regex :=
  Cat (Grp 1 (word (lit "sqrt"))) (Grp 2 (Cls not_lbrace)).

(** ** Normalization: [Math.normalize_final_answer] *)

(** [final_answer.split('=')[-1]] *)
Definition after_equals (final_answer : str) : str :=
  Py.last_item (Py.split (lit "=") final_answer).

(** The two [for] loops over the tables. *)
Definition substitute (final_answer : str) : str :=
  let final_answer :=
    fold_left (fun acc ba => Py.replace (fst ba) (snd ba) acc)
              SUBSTITUTIONS final_answer in
  fold_left (fun acc expr => Py.replace expr (lit "") acc)
            REMOVED_EXPRESSIONS final_answer.

(** The seven [re.sub] calls and the removal of the dollars. *)
Definition unwrap (final_answer : str) : str :=
  let final_answer :=
    sub FIRST_MATH [TLit (lit "$"); TGrp 3; TLit (lit "$")] final_answer in
  let final_answer := sub (WRAPPER "\text{") [TGrp 2] final_answer in
  let final_answer := sub (WRAPPER "\textbf{") [TGrp 2] final_answer in
  let final_answer := sub (WRAPPER "\overline{") [TGrp 2] final_answer in
  let final_answer := sub BOXED_WRAPPER [TGrp 2] final_answer in
  let final_answer :=
    sub FRAC_SHORT [TLit (lit "frac{"); TGrp 2; TLit (lit "}{"); TGrp 3; TLit (lit "}")]
        final_answer in
  let final_answer :=
    sub SQRT_SHORT [TLit (lit "sqrt{"); TGrp 2; TLit (lit "}")] final_answer in
  Py.replace (lit "$") (lit "") final_answer.

(** [# Normalize 100,000 -> 100000] *)
Definition strip_commas (final_answer : str) : str :=
  if Py.isdigit (Py.replace (lit ",") (lit "") final_answer)
  then Py.replace (lit ",") (lit "") final_answer
  else final_answer.

(** The whole function.  Its [print] writes the intermediate text to the
    standard output and does not change the result. *)
Definition normalize_final_answer (final_answer : str) : str :=
  strip_commas (unwrap (substitute (after_equals final_answer))).

(** ** CandidateLocator and [Math.answer_cleansing] *)

Definition THE_ANSWER_IS : str := lit "The answer is ".

(** The rebinding of [pred] at the head of the loop body. *)
Definition working_text (pred : str) : str :=
  if Py.contains THE_ANSWER_IS pred
  then Py.strip (Py.last_item (Py.split THE_ANSWER_IS pred))
  else pred.

(** The text each branch of the loop body selects. *)
Inductive candidate : Type :=
| Dollar (c : str)     (* [final_answer[-1]] *)
| Number (t : str)     (* [numbers[-1]] *)
| Raw (w : str).       (* [pred] *)

Definition locate (pred : str) : candidate :=
  let pred := working_text pred in
  let final_answer := findall_group DOLLAR_SPAN pred in
  match final_answer with
  | _ :: _ => Dollar (List.last final_answer [])
  | [] =>
      let numbers := findall NUMBER pred in
      match numbers with
      | _ :: _ => Number (List.last numbers [])
      | [] => Raw pred
      end
  end.

Definition selected (c : candidate) : str :=
  match c with Dollar s | Number s | Raw s => s end.

(** What the loop body appends to [predictions]. *)
Definition cleanse (pred : str) : str :=
  match locate pred with
  | Dollar c => normalize_final_answer c
  | Number t => t
  | Raw w => w
  end.

Definition answer_cleansing (preds : list str) : list str := map cleanse preds.

(** ** The arrays of [calculate_metric]

    [np.asarray], [==] and [np.mean] on one-dimensional arrays, as far as
    [calculate_metric] uses them. *)

Module Np.

(** An element read back from a fixed-width unicode array: the padding is
    made of NUL characters, so that trailing NULs of the element are lost. *)
Fixpoint rstrip_nul_rev (s : str) : str :=
  match s with
  | c :: s' => if Ascii.eqb c nul then rstrip_nul_rev s' else s
  | [] => []
  end.

Definition unicode_item (s : str) : str := rev (rstrip_nul_rev (rev s)).

(** [np.asarray(references)] is a unicode array when every reference is a
    string and an array of objects as soon as one of them is [None]. *)
Definition all_strings (refs : list (option str)) : bool :=
  forallb (fun r => match r with Some _ => true | None => false end) refs.

(** One comparison of [==]: between two unicode items, or between a unicode
    item and an object ([None] equals no string). *)
Definition item_eq (unicode : bool) (p : str) (r : option str) : bool :=
  match r with
  | None => false
  | Some r =>
      Py.str_eqb (unicode_item p) (if unicode then unicode_item r else r)
  end.

(** [a == b] with broadcasting: element by element when the lengths agree, an
    array of length one is repeated along the other, and any other pair of
    lengths is the error [ValueError] of NumPy 1.25 and later ([None]). *)
Definition equal (preds : list str) (refs : list (option str)) : option (list bool) :=
  let u := all_strings refs in
  if length preds =? length refs
  then Some (map (fun pr => item_eq u (fst pr) (snd pr)) (combine preds refs))
  else match preds, refs with
       | [p], _ => Some (map (item_eq u p) refs)
       | _, [r] => Some (map (fun p => item_eq u p r) preds)
       | _, _ => None
       end.

(** The value of [np.mean]: a float, or NaN for the empty array.  The float
    is the rounded quotient of two integers; it is modelled by the exact
    quotient. *)
Inductive float : Type :=
| Num (q : Q)
| NaN.

Definition count_true (bs : list bool) : nat := length (filter (fun b => b) bs).

Definition mean (bs : list bool) : float :=
  match bs with
  | [] => NaN
  | _ => Num (Z.of_nat (count_true bs) # Pos.of_nat (length bs))
  end.

End Np.

(** ** Scorer: [Math.references] and [Math.calculate_metric] *)

(** An item of the dataset. *)
Record instance : Type := { problem : str; solution : str }.

(** The property [references]. *)
Definition references (evaluation_data : list instance) : list (option str) :=
  map (fun instance => extract_inner_content (solution instance)) evaluation_data.

(** The comparison and the mean of [calculate_metric], on the cleansed
    predictions and the references.  [None] stands for the exception of the
    array comparison. *)
Definition score (predictions : list str) (refs : list (option str)) : option Np.float :=
  option_map Np.mean (Np.equal predictions refs).

(** [calculate_metric]: the value stored under the key [Accuracy]. *)
Definition calculate_metric (evaluation_data : list instance) (predictions : list str)
  : option Np.float :=
  let predictions := answer_cleansing predictions in
  score predictions (references evaluation_data).

(** ** Notions used in the statements *)

(** [sub] occurs in [text]. *)
Definition occurs (sub text : str) : Prop :=
  exists before after, text = before ++ sub ++ after.

(** The nesting depth after the characters of [s], read from depth [d];
    [None] as soon as the depth comes back to [0] inside [s]. *)
Fixpoint depth_after (d : nat) (s : str) : option nat :=
  match s with
  | [] => Some d
  | c :: s' =>
      match brace_step d c with
      | O => None
      | S d' => depth_after (S d') s'
      end
  end.

(** The texts a pattern matches: the language of the pattern, whatever the
    order in which the matcher tries them. *)
Fixpoint matches (r : regex) (w : str) : Prop :=
  match r with
  | Eps => w = []
  | Chr c => w = [c]
  | Cls p => exists x, w = [x] /\ p x = true
  | Cat r1 r2 => exists w1 w2, w = w1 ++ w2 /\ matches r1 w1 /\ matches r2 w2
  | Alt r1 r2 => matches r1 w \/ matches r2 w
  | Opt p => w = [] \/ exists x, w = [x] /\ p x = true
  | Star p | StarLazy p => forallb p w = true
  | Plus p => w <> [] /\ forallb p w = true
  | Grp _ r0 => matches r0 w
  end.

(** Every match of [r] holds the character [c]. *)
Fixpoint requires (c : ascii) (r : regex) : bool :=
  match r with
  | Chr x => Ascii.eqb x c
  | Cat r1 r2 => requires c r1 || requires c r2
  | Alt r1 r2 => requires c r1 && requires c r2
  | Grp _ r0 => requires c r0
  | _ => false
  end.

(** [r] can match the empty string. *)
Fixpoint nullable (r : regex) : bool :=
  match r with
  | Eps | Opt _ | Star _ | StarLazy _ => true
  | Chr _ | Cls _ | Plus _ => false
  | Cat r1 r2 => nullable r1 && nullable r2
  | Alt r1 r2 => nullable r1 || nullable r2
  | Grp _ r0 => nullable r0
  end.

(** Every character [r] can match satisfies [P]. *)
Fixpoint within (P : ascii -> bool) (r : regex) : Prop :=
  match r with
  | Eps => True
  | Chr c => P c = true
  | Cls p | Opt p | Star p | StarLazy p | Plus p => forall x, p x = true -> P x = true
  | Cat r1 r2 | Alt r1 r2 => within P r1 /\ within P r2
  | Grp _ r0 => within P r0
  end.

(** The characters of a numeric token. *)
Definition numeric_char (c : ascii) : bool :=
  digit c || sign c || Ascii.eqb c "."%char.

(** The characters no rule of the normalization looks for, the comma and
    the braces apart: decimal digits, signs, the point, the comma, round and
    square brackets, braces. *)
Definition plain_char (c : ascii) : bool :=
  numeric_char c || existsb (Ascii.eqb c) (lit ",()[]{}").

(** The only entry of the tables made of such characters alone. *)
Definition COMMA_IN_BRACES : str := lit "{,}".

(** A pure numeric answer: decimal digits only, and at least one. *)
Definition pure_numeric (x : str) : bool :=
  match x with
  | [] => false
  | _ => forallb digit x
  end.

(** A simple bracketed answer in normalized form, such as [(1,2)],
    [[-3,4.5)] or [{1,2}]: an opening bracket (round, square or brace),
    numbers separated by commas with no space, a closing bracket. *)
Definition simple_bracketed (x : str) : bool :=
  match x with
  | o :: body =>
      existsb (Ascii.eqb o) (lit "([{")
      && match rev body with
         | c :: inner =>
             existsb (Ascii.eqb c) (lit ")]}")
             && forallb (fun a => numeric_char a || Ascii.eqb a ","%char) inner
         | [] => false
         end
  | [] => false
  end.

(** The string is made of digits and commas only. *)
Definition only_digits_and_commas (s : str) : bool :=
  forallb (fun c => Py.isdigit_char c || Ascii.eqb c ","%char) s.

(** The string without its commas. *)
Definition remove_commas (s : str) : str :=
  filter (fun c => negb (Ascii.eqb c ","%char)) s.

(** Two strings are the same array item when they differ by trailing NUL
    characters at most. *)
Definition same_item (p r : str) : bool :=
  Py.str_eqb (Np.unicode_item p) (Np.unicode_item r).

(** The number of positions at which the two collections hold the same item. *)
Definition equal_pairs (predictions refs : list str) : nat :=
  length (filter (fun pr => same_item (fst pr) (snd pr)) (combine predictions refs)).

(** The reference of the claim C2: the extracted span, normalized. *)
Definition normalized_reference (instance : instance) : option str :=
  option_map normalize_final_answer (extract_inner_content (solution instance)).

(** ** [Math.format_instance] *)

(** The text an f-string gives for the extracted answer: the answer itself,
    or the word [None]. *)
Definition str_of (ans : option str) : str :=
  match ans with
  | Some s => s
  | None => lit "None"
  end.

(** The dictionary the function returns. *)
Record formatted : Type := { source : str; target : str }.

(** [format_instance] rewrites the two fields of the item it receives and
    returns the dictionary: the result is the item after the call and the
    dictionary. *)
Definition format_instance : instance -> instance * formatted := fun instance =>
  let ans := extract_inner_content (solution instance) in
  let instance :=
    {| problem := lit "Q: " ++ problem instance ++ [newline] ++ lit "A:";
       solution := solution instance |} in
  let instance :=
    {| problem := problem instance;
       solution := lit " " ++ solution instance
                   ++ (newline :: lit "The answer is $") ++ str_of ans ++ lit "$" |} in
  (instance, {| source := problem instance; target := solution instance |}).

(** ** [llmbox/model/enum.py] *)

Module Enum.

Local Open Scope string_scope.

Definition OPENAI_COMPLETION_MODELS : list string :=
  ["babbage-002"; "davinci-002"; "gpt-3.5-turbo-instruct"].

Definition OPENAI_CHAT_MODELS : list string :=
  ["gpt-3.5-turbo"; "gpt-3.5-turbo-1106"; "gpt-3.5-turbo-16k"; "gpt-4"].

Definition OPENAI_MODELS : list string :=
  (OPENAI_COMPLETION_MODELS ++ OPENAI_CHAT_MODELS)%list.

Definition OPENAI_INSTRUCTION_MODELS : list string :=
  (["gpt-3.5-turbo-instruct"] ++ OPENAI_CHAT_MODELS)%list.

Definition ANTHROPIC_MODELS : list string := ["claude-2.1"; "claude-instant-1.2"].

End Enum.

(** ** Further notions used in the statements *)

(** As many opening as closing braces. *)
Definition balanced (s : str) : Prop :=
  count_occ ascii_dec s "{"%char = count_occ ascii_dec s "}"%char.

(** The box of the text is closed: after the first marker comes a span along
    which the depth stays positive, and the brace that brings it to 0. *)
Definition terminated (text : str) : Prop :=
  exists i body rest,
    Py.find BOXED text = Some i
    /\ skipn (i + 7) text = body ++ "}"%char :: rest
    /\ depth_after 1 body = Some 1.

(** The text holds two dollars with neither a dollar nor a newline between
    them. *)
Definition dollar_pair (w : str) : Prop :=
  exists c, ~ In "$"%char c /\ ~ In newline c /\ occurs ("$"%char :: c ++ ["$"%char]) w.

(** The characters a normalized answer never holds. *)
Definition BANNED : str := ["$"%char; "="%char; " "%char; dquote].

(** The groups hold characters of the text only. *)
Definition caps_within (cs : caps) (s0 : str) : Prop :=
  forall n v c, In (n, v) cs -> In c v -> In c s0.

(** The literal characters of a template. *)
Definition template_chars (tpl : list titem) : str :=
  flat_map (fun t => match t with TLit l => l | TGrp _ => [] end) tpl.

(** The characters of a boxed number: those of a numeric token and those of
    the marker and its closing brace. *)
Definition boxed_char (c : ascii) : bool :=
  numeric_char c || existsb (Ascii.eqb c) (lit "\boxed{}").

(** The characters of a shorthand fraction of digits, and of a root. *)
Definition frac_char (c : ascii) : bool :=
  digit c || existsb (Ascii.eqb c) (lit "\frac{}").

Definition sqrt_char (c : ascii) : bool :=
  digit c || existsb (Ascii.eqb c) (lit "\sqrt{}").

(** * Properties *)

(** ** Python strings *)

Section PyFacts.

Lemma starts_with_app (p t : str) : Py.starts_with p (p ++ t) = true.
Proof.
  induction p as [|a p IH]; simpl; [reflexivity|].
  now rewrite Ascii.eqb_refl, IH.
Qed.

Lemma starts_with_inv (p s : str) :
  Py.starts_with p s = true -> exists t, s = p ++ t.
Proof.
  revert s; induction p as [|a p IH]; intros s H.
  - now exists s.
  - destruct s as [|b s]; simpl in H; [discriminate|].
    apply andb_true_iff in H as [Hab Hps].
    apply Ascii.eqb_eq in Hab; subst b.
    destruct (IH _ Hps) as [t ->]. now exists t.
Qed.

Lemma starts_with_In (p s : str) (c : ascii) :
  Py.starts_with p s = true -> In c p -> In c s.
Proof.
  intros H Hc. destruct (starts_with_inv H) as [t ->].
  apply in_or_app; now left.
Qed.

Lemma find_from_none (sub s : str) (i : nat) :
  Py.find_from sub s i = None <-> ~ occurs sub s.
Proof.
  revert i; induction s as [|c s IH]; intros i; simpl.
  - destruct (Py.starts_with sub []) eqn:E.
    + split; [discriminate|]. intros H; exfalso; apply H.
      destruct (starts_with_inv E) as [t Ht]. now exists [], t.
    + split; [|reflexivity]. intros _ (b & a & Hba).
      destruct b; [|discriminate]. simpl in Hba.
      now rewrite Hba, starts_with_app in E.
  - destruct (Py.starts_with sub (c :: s)) eqn:E.
    + split; [discriminate|]. intros H; exfalso; apply H.
      destruct (starts_with_inv E) as [t Ht]. now exists [], t.
    + rewrite IH. split; intros H (b & a & Hba); apply H.
      * destruct b as [|x b]; simpl in Hba.
        -- now rewrite Hba, starts_with_app in E.
        -- injection Hba as _ Hs. now exists b, a.
      * exists (c :: b), a. simpl. now rewrite Hba.
Qed.

Lemma find_none (sub text : str) : Py.find sub text = None <-> ~ occurs sub text.
Proof. apply find_from_none. Qed.

Lemma str_eqb_eq (a b : str) : Py.str_eqb a b = true <-> a = b.
Proof.
  revert b; induction a as [|x a IH]; intros [|y b]; simpl;
    try (split; [discriminate | discriminate]); [tauto|].
  rewrite andb_true_iff, Ascii.eqb_eq, IH.
  split; [intros [-> ->]; reflexivity | intros [= -> ->]; auto].
Qed.

Lemma occurs_In (sub s : str) (c : ascii) : occurs sub s -> In c sub -> In c s.
Proof.
  intros (b & a & ->) Hc. apply in_or_app. right. apply in_or_app. now left.
Qed.

(** [replace] leaves a text alone when what it looks for does not occur. *)
Lemma replace_unseen (old new s : str) :
  ~ occurs old s -> Py.replace old new s = s.
Proof.
  unfold Py.replace. induction s as [|x s IH]; intros Hs; simpl; [reflexivity|].
  destruct (Py.starts_with old (x :: s)) eqn:E.
  - exfalso. apply Hs. destruct (starts_with_inv E) as [t Ht]. now exists [], t.
  - f_equal. apply IH. intros (b & a & Hba). apply Hs.
    exists (x :: b), a. simpl. now rewrite Hba.
Qed.

(** [replace] leaves a text alone when it looks for a character the text
    does not hold. *)
Lemma replace_absent (old new s : str) (c : ascii) :
  In c old -> ~ In c s -> Py.replace old new s = s.
Proof.
  intros Hold. unfold Py.replace.
  induction s as [|x s IH]; intros Hs; simpl; [reflexivity|].
  destruct (Py.starts_with old (x :: s)) eqn:E.
  - exfalso. apply Hs. exact (starts_with_In E Hold).
  - f_equal. apply IH. intros H; apply Hs; now right.
Qed.

(** Replacing a one-character [old] by nothing filters that character out. *)
Lemma replace_char (c : ascii) (s : str) :
  Py.replace [c] [] s = filter (fun x => negb (Ascii.eqb x c)) s.
Proof.
  unfold Py.replace. induction s as [|x s IH]; simpl; [reflexivity|].
  rewrite andb_true_r, Ascii.eqb_sym.
  destruct (Ascii.eqb x c); simpl; now rewrite IH.
Qed.

End PyFacts.

(** ** BraceExtractor *)

Section BraceExtractor.

Lemma brace_loop_closed (rest : str) (end_ : nat) : brace_loop rest 0 end_ = end_.
Proof. now destruct rest. Qed.

(** While the depth stays positive the loop walks on. *)
Lemma brace_loop_app (body tail : str) :
  forall d d' end_,
    0 < d -> depth_after d body = Some d' ->
    brace_loop (body ++ tail) d end_ = brace_loop tail d' (end_ + length body).
Proof.
  induction body as [|c body IH]; intros d d' end_ Hd H; simpl in *.
  - injection H as ->. now rewrite Nat.add_0_r.
  - destruct d as [|d]; [lia|].
    destruct (brace_step (S d) c) as [|n] eqn:E; [discriminate|].
    rewrite (IH (S n) d' (end_ + 1)); [f_equal; lia | lia | exact H].
Qed.

Lemma depth_after_pos (s : str) :
  forall d d', 0 < d -> depth_after d s = Some d' -> 0 < d'.
Proof.
  induction s as [|c s IH]; intros d d' Hd H; simpl in H.
  - injection H as <-. exact Hd.
  - destruct (brace_step d c) eqn:E; [discriminate|].
    eapply IH; [|exact H]. lia.
Qed.

End BraceExtractor.

(** C4. When the marker occurs, and the text after its first occurrence is
    [body], a closing brace and [rest], where the depth (1 at first, one more
    at each opening brace, one less at each closing brace) stays positive
    along [body] and is 1 at its end, so that this closing brace brings it to
    0, the extractor returns [body]: the text from just after the marker to
    just before that brace. *)
Theorem extract_balanced (text body rest : str) (i : nat) :
  Py.find BOXED text = Some i ->
  skipn (i + 7) text = body ++ "}"%char :: rest ->
  depth_after 1 body = Some 1 ->
  extract_inner_content text = Some body.
Proof.
  intros Hfind Hsuffix Hdepth. unfold extract_inner_content.
  rewrite Hfind. cbv zeta. unfold Py.slice. rewrite Hsuffix.
  rewrite (@brace_loop_app body ("}"%char :: rest) 1 1 (i + 7)) by (lia || assumption).
  simpl brace_loop. rewrite brace_loop_closed.
  replace (i + 7 + length body + 1 - 1 - (i + 7)) with (length body + 0) by lia.
  now rewrite firstn_app_2, firstn_O, app_nil_r.
Qed.

(** The nested braces of the fraction are tracked. *)
Lemma extract_balanced_witness :
  extract_inner_content (lit "so \boxed{\frac{1}{2}}, done") = Some (lit "\frac{1}{2}").
Proof.
  apply (@extract_balanced _ (lit "\frac{1}{2}") (lit ", done") 3); reflexivity.
Defined.

(** C5. The extractor returns nothing exactly when the marker does not occur
    in the text.  When the marker occurs and the depth never comes back to 0
    before the end of the text, it returns the text after the marker less its
    last character.  It is defined on every text: a text with the marker
    always gives a span. *)
Theorem extract_absent_or_degraded (text : str) :
  (extract_inner_content text = None <-> ~ occurs BOXED text)
  /\ (forall i d,
        Py.find BOXED text = Some i ->
        depth_after 1 (skipn (i + 7) text) = Some d ->
        extract_inner_content text = Some (removelast (skipn (i + 7) text)))
  /\ (occurs BOXED text -> exists span, extract_inner_content text = Some span).
Proof.
  assert (Hnone : extract_inner_content text = None <-> ~ occurs BOXED text).
  { rewrite <- find_none. unfold extract_inner_content.
    destruct (Py.find BOXED text); split; intros H; discriminate || reflexivity. }
  split; [exact Hnone|]. split.
  - intros i d Hfind Hdepth. unfold extract_inner_content.
    rewrite Hfind. cbv zeta. unfold Py.slice.
    set (suffix := skipn (i + 7) text) in *.
    pose proof (@brace_loop_app suffix [] 1 d (i + 7) Nat.lt_0_1 Hdepth) as Hloop.
    rewrite app_nil_r in Hloop. rewrite Hloop.
    assert (0 < d) by (eapply depth_after_pos; [|exact Hdepth]; lia).
    destruct d as [|d]; [lia|]. simpl brace_loop.
    rewrite removelast_firstn_len. do 2 f_equal. lia.
  - intros Hocc. destruct (extract_inner_content text) as [span|] eqn:E.
    + now exists span.
    + exfalso. now apply Hnone.
Qed.

(** An unterminated box: the only character after the marker is lost. *)
Lemma extract_absent_or_degraded_witness :
  extract_inner_content (lit "so \boxed{5") = Some (lit "")
  /\ extract_inner_content (lit "no marker here") = None
  /\ exists span, extract_inner_content (lit "\boxed{") = Some span.
Proof.
  split; [|split].
  - apply (proj1 (proj2 (extract_absent_or_degraded (lit "so \boxed{5"))) 3 1);
      reflexivity.
  - apply (proj1 (extract_absent_or_degraded (lit "no marker here"))).
    apply find_none. reflexivity.
  - apply (proj2 (proj2 (extract_absent_or_degraded (lit "\boxed{")))).
    exists [], []. reflexivity.
Defined.

(** ** The matcher *)

Section MatcherSound.

Variable A : Type.

Lemma star_greedy_sound (p : ascii -> bool) (k : str -> option A) (s : str) (a : A) :
  star_greedy p k s = Some a ->
  exists w s', s = w ++ s' /\ forallb p w = true /\ k s' = Some a.
Proof.
  induction s as [|c s IH]; simpl; intros H.
  - now exists [], [].
  - destruct (p c) eqn:Hp.
    + destruct (star_greedy p k s) as [a'|] eqn:E.
      * injection H as ->. destruct (IH eq_refl) as (w & s' & -> & Hw & Hk).
        exists (c :: w), s'. simpl. now rewrite Hp, Hw.
      * now exists [], (c :: s).
    + now exists [], (c :: s).
Qed.

Lemma star_lazy_sound (p : ascii -> bool) (k : str -> option A) (s : str) (a : A) :
  star_lazy p k s = Some a ->
  exists w s', s = w ++ s' /\ forallb p w = true /\ k s' = Some a.
Proof.
  induction s as [|c s IH]; simpl; intros H.
  - destruct (k []) eqn:E; [|discriminate]. injection H as ->. now exists [], [].
  - destruct (k (c :: s)) eqn:E.
    + injection H as ->. now exists [], (c :: s).
    + destruct (p c) eqn:Hp; [|discriminate].
      destruct (IH H) as (w & s' & -> & Hw & Hk).
      exists (c :: w), s'. simpl. now rewrite Hp, Hw.
Qed.

(** The lazy repetition stops at the first place where the rest of the
    pattern succeeds. *)
Lemma star_lazy_first (p : ascii -> bool) (k : str -> option A) (s : str) (a : A) :
  star_lazy p k s = Some a ->
  exists w s',
    s = w ++ s' /\ forallb p w = true /\ k s' = Some a
    /\ (forall w1 y w2, w = w1 ++ y :: w2 -> k (y :: w2 ++ s') = None).
Proof.
  induction s as [|c s IH]; simpl; intros H.
  - destruct (k []) eqn:E; [|discriminate]. injection H as ->.
    exists [], []. repeat split; auto. intros [|? ?] ? ? ?; discriminate.
  - destruct (k (c :: s)) eqn:E.
    + injection H as ->. exists [], (c :: s). repeat split; auto.
      intros [|? ?] ? ? ?; discriminate.
    + destruct (p c) eqn:Hp; [|discriminate].
      destruct (IH H) as (w & s' & -> & Hw & Hk & Hfirst).
      exists (c :: w), s'. simpl. rewrite Hp, Hw. repeat split; auto.
      intros [|x w1] y w2 Hsplit; injection Hsplit as -> ->.
      * exact E.
      * now apply (Hfirst w1 y w2).
Qed.

(** Whatever the matcher finds is a match of the pattern, followed by a text
    on which the rest of the pattern succeeded. *)
Lemma run_sound (r : regex) :
  forall (s : str) (cs : caps) (k : str -> caps -> option A) (a : A),
    run r s cs k = Some a ->
    exists w s' cs', s = w ++ s' /\ matches r w /\ k s' cs' = Some a.
Proof.
  induction r as [|c|p|r1 IH1 r2 IH2|r1 IH1 r2 IH2|p|p|p|p|n r0 IH];
    intros s cs k a H; simpl in H.
  - now exists [], s, cs.
  - destruct s as [|x s]; [discriminate|].
    destruct (Ascii.eqb_spec x c) as [->|]; [|discriminate].
    now exists [c], s, cs.
  - destruct s as [|x s]; [discriminate|].
    destruct (p x) eqn:Hp; [|discriminate].
    exists [x], s, cs. simpl. repeat split; eauto.
  - destruct (IH1 _ _ _ _ H) as (w1 & s1 & cs1 & -> & Hw1 & H2).
    destruct (IH2 _ _ _ _ H2) as (w2 & s2 & cs2 & -> & Hw2 & Hk).
    exists (w1 ++ w2), s2, cs2. rewrite <- app_assoc. simpl. eauto 8.
  - destruct (run r1 s cs k) as [a'|] eqn:E.
    + injection H as ->. destruct (IH1 _ _ _ _ E) as (w & s' & cs' & -> & Hw & Hk).
      exists w, s', cs'. simpl. auto.
    + destruct (IH2 _ _ _ _ H) as (w & s' & cs' & -> & Hw & Hk).
      exists w, s', cs'. simpl. auto.
  - destruct s as [|x s]; [now exists [], [], cs; simpl; auto|].
    destruct (p x) eqn:Hp; [|now exists [], (x :: s), cs; simpl; auto].
    destruct (k s cs) as [a'|] eqn:E.
    + injection H as ->. exists [x], s, cs. simpl. eauto 8.
    + exists [], (x :: s), cs. simpl. auto.
  - destruct (star_greedy_sound H) as (w & s' & -> & Hw & Hk). now exists w, s', cs.
  - destruct (star_lazy_sound H) as (w & s' & -> & Hw & Hk). now exists w, s', cs.
  - destruct s as [|x s]; [discriminate|].
    destruct (p x) eqn:Hp; [|discriminate].
    destruct (star_greedy_sound H) as (w & s' & -> & Hw & Hk).
    exists (x :: w), s', cs. simpl. rewrite Hp, Hw. repeat split; auto. discriminate.
  - destruct (IH _ _ _ _ H) as (w & s' & cs' & -> & Hw & Hk).
    now exists w, s', ((n, firstn (length (w ++ s') - length s') (w ++ s')) :: cs').
Qed.

End MatcherSound.

Section Scan.

Lemma match_at_sound (r : regex) (s rest : str) (cs : caps) :
  match_at r s = Some (rest, cs) -> exists w, s = w ++ rest /\ matches r w.
Proof.
  intros H. destruct (run_sound H) as (w & s' & cs' & -> & Hw & Hk).
  injection Hk as -> _. now exists w.
Qed.

Lemma requires_In (c : ascii) (r : regex) :
  forall w, requires c r = true -> matches r w -> In c w.
Proof.
  induction r as [|x|p|r1 IH1 r2 IH2|r1 IH1 r2 IH2|p|p|p|p|n r0 IH];
    intros w Hreq Hw; simpl in *; try discriminate.
  - apply Ascii.eqb_eq in Hreq. subst. now left.
  - destruct Hw as (w1 & w2 & -> & Hw1 & Hw2). apply in_or_app.
    apply orb_true_iff in Hreq as [H|H]; [left|right]; eauto.
  - apply andb_true_iff in Hreq as [H1 H2]. destruct Hw; eauto.
  - eauto.
Qed.

Lemma within_forallb (P : ascii -> bool) (r : regex) :
  forall w, within P r -> matches r w -> forallb P w = true.
Proof.
  assert (Hall : forall (p : ascii -> bool) w,
             (forall x, p x = true -> P x = true) ->
             forallb p w = true -> forallb P w = true).
  { intros p w Hp Hw. apply forallb_forall. intros x Hx.
    apply Hp. eapply forallb_forall in Hw; eauto. }
  induction r as [|x|p|r1 IH1 r2 IH2|r1 IH1 r2 IH2|p|p|p|p|n r0 IH];
    intros w Hin Hw; simpl in *.
  - now subst.
  - subst. simpl. now rewrite Hin.
  - destruct Hw as (x & -> & Hx). simpl. now rewrite (Hin _ Hx).
  - destruct Hw as (w1 & w2 & -> & Hw1 & Hw2). destruct Hin.
    rewrite forallb_app, IH1, IH2; auto.
  - destruct Hin. destruct Hw; auto.
  - destruct Hw as [->|(x & -> & Hx)]; [reflexivity|]. simpl. now rewrite (Hin _ Hx).
  - eauto.
  - eauto.
  - destruct Hw. eauto.
  - auto.
Qed.

Lemma matches_not_nil (r : regex) :
  forall w, nullable r = false -> matches r w -> w <> [].
Proof.
  induction r as [|x|p|r1 IH1 r2 IH2|r1 IH1 r2 IH2|p|p|p|p|n r0 IH];
    intros w Hn Hw; simpl in *; try discriminate.
  - now subst.
  - destruct Hw as (x & -> & _). discriminate.
  - destruct Hw as (w1 & w2 & -> & Hw1 & Hw2). intros E.
    apply app_eq_nil in E as [-> ->].
    apply andb_false_iff in Hn as [Hn|Hn]; [now apply (IH1 [])|now apply (IH2 [])].
  - apply orb_false_iff in Hn as [Hn1 Hn2]. destruct Hw; auto.
  - now destruct Hw.
  - auto.
Qed.

(** No pattern of the source matches the empty string. *)
Lemma patterns_not_nullable :
  forallb (fun r => negb (nullable r))
    [ DOLLAR_SPAN; NUMBER; FIRST_MATH; WRAPPER "\text{"; WRAPPER "\textbf{";
      WRAPPER "\overline{"; BOXED_WRAPPER; FRAC_SHORT; SQRT_SHORT ] = true.
Proof. reflexivity. Qed.

(** A pattern that requires a character finds nothing in a text without it. *)
Lemma match_at_absent (c : ascii) (r : regex) (s : str) :
  requires c r = true -> ~ In c s -> match_at r s = None.
Proof.
  intros Hreq Hs. destruct (match_at r s) as [[rest cs]|] eqn:E; [|reflexivity].
  destruct (match_at_sound E) as (w & -> & Hw).
  exfalso. apply Hs, in_or_app. left. eapply requires_In; eauto.
Qed.

Lemma scan_absent (c : ascii) (r : regex) (s : str) :
  requires c r = true -> ~ In c s -> scan r 0 s = map Skipped s.
Proof.
  intros Hreq. induction s as [|x s IH]; intros Hs; simpl; [reflexivity|].
  rewrite (match_at_absent Hreq Hs), IH; [reflexivity|].
  intros H; apply Hs; now right.
Qed.

Lemma sub_absent (c : ascii) (r : regex) (tpl : list titem) (s : str) :
  requires c r = true -> ~ In c s -> sub r tpl s = s.
Proof.
  intros Hreq Hs. unfold sub. rewrite (scan_absent Hreq Hs).
  clear. induction s as [|x s IH]; simpl; [reflexivity|]. now rewrite IH.
Qed.

Lemma scan_here (r : regex) (x : ascii) (s : str) :
  scan r 0 (x :: s) =
  match match_at r (x :: s) with
  | Some (rest, cs) =>
      match length (x :: s) - length rest with
      | O => Skipped x :: scan r 0 s
      | S n => Matched (firstn (S n) (x :: s)) cs :: scan r n s
      end
  | None => Skipped x :: scan r 0 s
  end.
Proof. reflexivity. Qed.

(** Every match the scan reports is a match of the pattern at that place of
    the text. *)
Lemma scan_found (r : regex) (s : str) :
  forall k w cs,
    In (Matched w cs) (scan r k s) ->
    exists before rest,
      s = before ++ w ++ rest /\ match_at r (w ++ rest) = Some (rest, cs).
Proof.
  induction s as [|x s IH]; intros k w cs H; [contradiction|].
  assert (Hlater : forall k', In (Matched w cs) (scan r k' s) ->
            exists before rest,
              x :: s = before ++ w ++ rest
              /\ match_at r (w ++ rest) = Some (rest, cs)).
  { intros k' H'. destruct (IH _ _ _ H') as (b & rest & -> & Hm).
    now exists (x :: b), rest. }
  destruct k as [|k]; [|now apply (Hlater k)].
  rewrite scan_here in H.
  destruct (match_at r (x :: s)) as [[rest cs']|] eqn:E.
  - destruct (length (x :: s) - length rest) as [|n] eqn:En.
    + destruct H as [H|H]; [discriminate|eauto].
    + destruct H as [H|H]; [|eauto].
      destruct (match_at_sound E) as (w' & Hw & Hm).
      assert (Hfirst : firstn (S n) (x :: s) = w').
      { rewrite Hw in En |- *. rewrite length_app in En.
        replace (S n) with (length w' + 0) by lia.
        now rewrite firstn_app_2, firstn_O, app_nil_r. }
      injection H as Hw0 Hcs. change (firstn (S n) (x :: s) = w) in Hw0.
      rewrite Hfirst in Hw0. subst w' cs'.
      exists [], rest. rewrite <- Hw. now split.
  - destruct H as [H|H]; [discriminate|eauto].
Qed.

Lemma scan_matched (r : regex) (s : str) :
  forall k w cs, In (Matched w cs) (scan r k s) -> matches r w.
Proof.
  intros k w cs H. destruct (scan_found H) as (before & rest & _ & Hm).
  destruct (match_at_sound Hm) as (w' & Hw & Hw').
  apply app_inv_tail in Hw. now subst.
Qed.

Lemma findall_matches (r : regex) (s w : str) :
  In w (findall r s) -> matches r w.
Proof.
  unfold findall. intros H. apply in_flat_map in H as (p & Hp & Hw).
  destruct p as [|w' cs]; [contradiction|].
  destruct Hw as [<-|[]]. eapply scan_matched; eauto.
Qed.

End Scan.

(** ** The final pass: thousands separators *)

Section Commas.

Lemma replace_comma (s : str) : Py.replace (lit ",") (lit "") s = remove_commas s.
Proof. apply replace_char. Qed.

Lemma digits_of_remove_commas (s : str) :
  forallb Py.isdigit_char (remove_commas s) = only_digits_and_commas s.
Proof.
  induction s as [|c s IH]; simpl; [reflexivity|].
  destruct (Ascii.eqb_spec c ","%char) as [->|Hc]; simpl.
  - exact IH.
  - now rewrite IH, orb_false_r.
Qed.

Lemma isdigit_remove_commas (s : str) :
  Py.isdigit (remove_commas s)
  = only_digits_and_commas s && existsb Py.isdigit_char s.
Proof.
  induction s as [|c s IH]; simpl; [reflexivity|].
  destruct (Ascii.eqb_spec c ","%char) as [->|Hc]; simpl.
  - exact IH.
  - rewrite orb_false_r, digits_of_remove_commas.
    destruct (Py.isdigit_char c); simpl; [now rewrite andb_true_r | reflexivity].
Qed.

End Commas.

(** C8, as the code has it.  The final pass removes the commas if and only if
    the string it receives is made of digits and commas only and holds at
    least one digit (a digit being a character for which [str.isdigit] is
    true); otherwise the string is returned as it is, every comma in place.
    So [3,000] becomes [3000], and a comma in a string that still holds
    another character stays. *)
Theorem strip_commas_spec (s : str) :
  strip_commas s =
  if only_digits_and_commas s && existsb Py.isdigit_char s
  then remove_commas s
  else s.
Proof.
  unfold strip_commas. now rewrite replace_comma, isdigit_remove_commas.
Qed.

(** C8 as stated fails on a string of commas: it is made of digits and commas
    only, and its comma is not removed. *)
Lemma strip_commas_counterexample :
  only_digits_and_commas (lit ",") = true
  /\ strip_commas (lit ",") <> remove_commas (lit ",")
  /\ normalize_final_answer (lit ",") = lit ",".
Proof. repeat split; [discriminate]. Qed.

(** ** The cut at the last equals sign *)

Section AfterEquals.

(** Splitting at a one-character separator. *)
Variable eq_sign : ascii.

Lemma split_go_not_nil (sep : str) (s : str) :
  forall k cur, Py.split_go sep k cur s <> [].
Proof.
  induction s as [|c s IH]; intros k cur; simpl; [discriminate|].
  destruct k; [|apply IH].
  destruct (Py.starts_with sep (c :: s)); [discriminate|apply IH].
Qed.

Lemma last_cons_not_nil (x : str) (l : list str) :
  l <> [] -> List.last (x :: l) [] = List.last l [].
Proof. now destruct l. Qed.

Lemma split_char_absent (s : str) :
  forall cur, ~ In eq_sign s -> Py.split_go [eq_sign] 0 cur s = [rev cur ++ s].
Proof.
  induction s as [|c s IH]; intros cur Hs; simpl.
  - now rewrite app_nil_r.
  - rewrite andb_true_r. destruct (Ascii.eqb_spec eq_sign c) as [<-|Hc].
    + exfalso. apply Hs. now left.
    + rewrite IH by (intros H; apply Hs; now right).
      simpl. now rewrite <- app_assoc.
Qed.

Lemma split_char_last (a t : str) :
  forall cur,
    List.last (Py.split_go [eq_sign] 0 cur (a ++ eq_sign :: t)) []
    = List.last (Py.split_go [eq_sign] 0 [] t) [].
Proof.
  induction a as [|c a IH]; intros cur.
  - simpl. rewrite Ascii.eqb_refl. simpl.
    apply last_cons_not_nil, split_go_not_nil.
  - cbn [app Py.split_go Py.starts_with length Nat.sub].
    rewrite andb_true_r. destruct (Ascii.eqb eq_sign c).
    + rewrite last_cons_not_nil by apply split_go_not_nil. apply IH.
    + apply IH.
Qed.

End AfterEquals.

Lemma after_equals_absent (s : str) : ~ In "="%char s -> after_equals s = s.
Proof.
  intros Hs. unfold after_equals, Py.split, Py.last_item.
  change (lit "=") with ["="%char]. now rewrite split_char_absent.
Qed.

Lemma after_equals_cut (a t : str) :
  ~ In "="%char t -> after_equals (a ++ "="%char :: t) = t.
Proof.
  intros Ht. unfold after_equals, Py.split, Py.last_item.
  change (lit "=") with ["="%char].
  now rewrite split_char_last, split_char_absent.
Qed.

(** C10. Normalization begins by dropping everything up to the last equals
    sign: when [s] is [a], an equals sign and [t], and [t] holds no equals
    sign, the normal form of [s] is that of [t]; a text without an equals sign
    goes through the later passes whole. *)
Theorem normalize_after_last_equals (s : str) :
  (forall a t, s = a ++ "="%char :: t -> ~ In "="%char t ->
     after_equals s = t
     /\ normalize_final_answer s = normalize_final_answer t)
  /\ (~ In "="%char s ->
      normalize_final_answer s = strip_commas (unwrap (substitute s))).
Proof.
  split.
  - intros a t -> Ht. unfold normalize_final_answer.
    now rewrite (after_equals_cut a Ht), (after_equals_absent Ht).
  - intros Hs. unfold normalize_final_answer. now rewrite (after_equals_absent Hs).
Qed.

Lemma normalize_after_last_equals_witness :
  normalize_final_answer (lit "x=2+1=\frac62") = normalize_final_answer (lit "\frac62")
  /\ normalize_final_answer (lit "3,000")
     = strip_commas (unwrap (substitute (lit "3,000"))).
Proof.
  split.
  - apply (proj1 (normalize_after_last_equals (lit "x=2+1=\frac62")) (lit "x=2+1")
             (lit "\frac62") eq_refl).
    simpl. intuition discriminate.
  - apply (proj2 (normalize_after_last_equals (lit "3,000"))).
    simpl. intuition discriminate.
Defined.

(** ** Texts the rules do not touch *)

Section Plain.

Lemma plain_absent (s : str) (c : ascii) :
  forallb plain_char s = true -> plain_char c = false -> ~ In c s.
Proof.
  intros Hs Hc Hin. rewrite forallb_forall in Hs.
  specialize (Hs c Hin). congruence.
Qed.

Lemma replace_plain (old new s : str) :
  forallb plain_char s = true ->
  existsb (fun c => negb (plain_char c)) old = true ->
  Py.replace old new s = s.
Proof.
  intros Hs Hold. apply existsb_exists in Hold as (c & Hc & Hn).
  apply (replace_absent new Hc). apply (plain_absent Hs).
  now apply negb_true_iff.
Qed.

Lemma fold_left_fixed (B : Type) (f : str -> B -> str) (l : list B) (s : str) :
  (forall b, In b l -> f s b = s) -> fold_left f l s = s.
Proof.
  induction l as [|b l IH]; intros H; simpl; [reflexivity|].
  rewrite (H b) by now left. apply IH. intros b' Hb'. apply H. now right.
Qed.

Lemma substitute_plain (s : str) :
  forallb plain_char s = true -> ~ occurs COMMA_IN_BRACES s -> substitute s = s.
Proof.
  intros Hs Hb. unfold substitute.
  assert (H1 : forallb (fun ba : str * str =>
                          existsb (fun c => negb (plain_char c)) (fst ba))
                       SUBSTITUTIONS = true) by reflexivity.
  assert (H2 : forallb (fun e => existsb (fun c => negb (plain_char c)) e
                                 || Py.str_eqb e COMMA_IN_BRACES)
                       REMOVED_EXPRESSIONS = true) by reflexivity.
  rewrite forallb_forall in H1, H2.
  cbv zeta. rewrite (@fold_left_fixed _ _ SUBSTITUTIONS s).
  - apply fold_left_fixed. intros e He.
    destruct (orb_true_elim _ _ (H2 _ He)) as [H|H].
    + now apply replace_plain.
    + apply str_eqb_eq in H. subst e. now apply replace_unseen.
  - intros ba Hba. apply replace_plain; [exact Hs|]. exact (H1 _ Hba).
Qed.

Lemma unwrap_plain (s : str) : forallb plain_char s = true -> unwrap s = s.
Proof.
  intros Hs. unfold unwrap.
  rewrite (@sub_absent "$"%char FIRST_MATH), (@sub_absent "\"%char (WRAPPER "\text{")),
    (@sub_absent "\"%char (WRAPPER "\textbf{")),
    (@sub_absent "\"%char (WRAPPER "\overline{")),
    (@sub_absent "\"%char BOXED_WRAPPER), (@sub_absent "f"%char FRAC_SHORT),
    (@sub_absent "s"%char SQRT_SHORT);
    try reflexivity; try (apply (plain_absent Hs); reflexivity).
  apply (@replace_absent _ _ _ "$"%char); [now left|].
  apply (plain_absent Hs); reflexivity.
Qed.

(** On such a text only the final pass can act. *)
Lemma normalize_plain (s : str) :
  forallb plain_char s = true -> ~ occurs COMMA_IN_BRACES s ->
  normalize_final_answer s = strip_commas s.
Proof.
  intros Hs Hb. unfold normalize_final_answer.
  rewrite after_equals_absent by (apply (plain_absent Hs); reflexivity).
  now rewrite (substitute_plain Hs Hb), (unwrap_plain Hs).
Qed.

Lemma remove_commas_absent (s : str) : ~ In ","%char s -> remove_commas s = s.
Proof.
  induction s as [|c s IH]; intros Hs; simpl; [reflexivity|].
  destruct (Ascii.eqb_spec c ","%char) as [->|Hc]; simpl.
  - exfalso. apply Hs. now left.
  - rewrite IH; [reflexivity|]. intros H. apply Hs. now right.
Qed.

Lemma strip_commas_absent (s : str) : ~ In ","%char s -> strip_commas s = s.
Proof.
  intros Hs. unfold strip_commas. rewrite replace_comma, (remove_commas_absent Hs).
  now destruct (Py.isdigit s).
Qed.

Lemma forallb_weaken (P Q : ascii -> bool) (s : str) :
  (forall c, P c = true -> Q c = true) -> forallb P s = true -> forallb Q s = true.
Proof.
  intros HPQ Hs. apply forallb_forall. intros c Hc. apply HPQ.
  rewrite forallb_forall in Hs. auto.
Qed.

Lemma numeric_plain (c : ascii) : numeric_char c = true -> plain_char c = true.
Proof. unfold plain_char. now intros ->. Qed.

Lemma digit_numeric (c : ascii) : digit c = true -> numeric_char c = true.
Proof. unfold numeric_char. now intros ->. Qed.

Lemma numeric_not_comma (c : ascii) : numeric_char c = true -> c <> ","%char.
Proof. intros H ->. discriminate H. Qed.

(** A numeric token is a fixed point of the normalization. *)
Lemma normalize_numeric (t : str) :
  forallb numeric_char t = true -> normalize_final_answer t = t.
Proof.
  intros Ht. rewrite forallb_forall in Ht. rewrite normalize_plain.
  - apply strip_commas_absent. intros Hin. now apply (numeric_not_comma (Ht _ Hin)).
  - apply forallb_forall. intros c Hc. apply numeric_plain. auto.
  - intros Hocc. assert (Hin : In "{"%char t) by (apply (occurs_In Hocc); now left).
    specialize (Ht _ Hin). discriminate Ht.
Qed.

End Plain.

(** ** Idempotence on answers in normal form *)

Section NormalForms.

Lemma one_of_three (o a b c : ascii) :
  existsb (Ascii.eqb o) [a; b; c] = true -> o = a \/ o = b \/ o = c.
Proof.
  simpl. rewrite orb_false_r. intros H.
  apply orb_true_iff in H as [H|H]; [|apply orb_true_iff in H as [H|H]];
    apply Ascii.eqb_eq in H; auto.
Qed.

Lemma pure_numeric_fixed (x : str) :
  pure_numeric x = true -> normalize_final_answer x = x.
Proof.
  intros Hx. apply normalize_numeric.
  apply forallb_weaken with (P := digit); [apply digit_numeric|].
  destruct x; [discriminate|exact Hx].
Qed.

(** The shape of a simple bracketed answer. *)
Lemma simple_bracketed_shape (x : str) :
  simple_bracketed x = true ->
  exists o inner c,
    x = o :: inner ++ [c]
    /\ (o = "("%char \/ o = "["%char \/ o = "{"%char)
    /\ (c = ")"%char \/ c = "]"%char \/ c = "}"%char)
    /\ (forall a, In a inner -> numeric_char a = true \/ a = ","%char).
Proof.
  destruct x as [|o body]; [discriminate|]. simpl.
  intros H. apply andb_true_iff in H as [Ho H].
  destruct (rev body) as [|c inner] eqn:Hrev; [discriminate|].
  apply andb_true_iff in H as [Hc Hinner].
  exists o, (rev inner), c. repeat split.
  - f_equal. rewrite <- (rev_involutive body), Hrev. reflexivity.
  - exact (one_of_three Ho).
  - exact (one_of_three Hc).
  - intros a Ha. apply in_rev in Ha. rewrite forallb_forall in Hinner.
    specialize (Hinner a Ha). apply orb_true_iff in Hinner as [E|E]; [now left|].
    right. now apply Ascii.eqb_eq.
Qed.

Lemma simple_bracketed_fixed (x : str) :
  simple_bracketed x = true -> x <> COMMA_IN_BRACES -> normalize_final_answer x = x.
Proof.
  intros H Hx.
  destruct (simple_bracketed_shape H) as (o & inner & c & -> & Ho & Hc & Hin).
  assert (Hinner : forall a, In a inner -> a <> "{"%char /\ a <> "}"%char).
  { intros a Ha. destruct (Hin a Ha) as [E| ->]; [|split; discriminate].
    split; intros ->; discriminate E. }
  rewrite normalize_plain.
  - unfold strip_commas. rewrite replace_comma, isdigit_remove_commas.
    destruct Ho as [-> | [-> | ->]]; reflexivity.
  - apply forallb_forall. intros a [<-|Ha].
    + destruct Ho as [-> | [-> | ->]]; reflexivity.
    + apply in_app_or in Ha as [Ha|[<-|[]]].
      * destruct (Hin a Ha) as [E| ->]; [now apply numeric_plain|reflexivity].
      * destruct Hc as [-> | [-> | ->]]; reflexivity.
  - intros (b & a & Hba). destruct b as [|y b]; simpl in Hba.
    + injection Hba as -> Hba.
      destruct inner as [|i inner]; [destruct Hc as [-> | [-> | ->]]; discriminate|].
      injection Hba as -> Hba.
      destruct inner as [|j inner].
      * injection Hba as -> Ha. now apply Hx.
      * injection Hba as -> _.
        now destruct (Hinner "}"%char (or_intror (or_introl eq_refl))).
    + injection Hba as _ Hba.
      assert (Hl : In "{"%char (inner ++ [c])).
      { rewrite Hba. apply in_or_app. right. now left. }
      apply in_app_or in Hl as [Hl|[Hl|[]]].
      * now destruct (Hinner _ Hl).
      * subst c. destruct Hc as [E | [E | E]]; discriminate E.
Qed.

End NormalForms.

(** C9. A pure numeric answer (decimal digits only) and a simple bracketed
    answer in normal form are left as they are by the normalization (the
    brace pair around a lone comma apart, which it deletes); the
    normalization is therefore idempotent on them. *)
Theorem normalize_idempotent (x : str) :
  pure_numeric x = true \/ simple_bracketed x = true ->
  normalize_final_answer (normalize_final_answer x) = normalize_final_answer x.
Proof.
  intros [H|H].
  - now rewrite !(pure_numeric_fixed H).
  - destruct (list_eq_dec ascii_dec x COMMA_IN_BRACES) as [->|Hx].
    + reflexivity.
    + now rewrite !(simple_bracketed_fixed H Hx).
Qed.

Lemma normalize_idempotent_witness :
  normalize_final_answer (normalize_final_answer (lit "3000"))
  = normalize_final_answer (lit "3000")
  /\ normalize_final_answer (normalize_final_answer (lit "(1,-2.5)"))
     = normalize_final_answer (lit "(1,-2.5)").
Proof.
  split.
  - apply (@normalize_idempotent (lit "3000")). left. reflexivity.
  - apply (@normalize_idempotent (lit "(1,-2.5)")). right. reflexivity.
Defined.

(** ** What [answer_cleansing] appends *)

Section Cleansing.

Lemma last_In (l : list str) : l <> [] -> In (List.last l []) l.
Proof.
  induction l as [|x l IH]; [congruence|]. intros _.
  destruct l as [|y l]; [now left|].
  right. apply IH. discriminate.
Qed.

Lemma number_within : within numeric_char NUMBER.
Proof.
  assert (Hd : forall x, digit x = true -> numeric_char x = true)
    by apply digit_numeric.
  assert (Hs : forall x, sign x = true -> numeric_char x = true).
  { intros x Hx. unfold numeric_char. now rewrite Hx, orb_true_r. }
  simpl. repeat split; auto.
Qed.

Lemma number_token (w t : str) :
  In t (findall NUMBER w) -> forallb numeric_char t = true.
Proof.
  intros H. apply (within_forallb number_within). now apply findall_matches in H.
Qed.

End Cleansing.

(** C1, as the code has it.  The text appended for a prediction is the
    normal form of the candidate when the candidate is the content of a
    dollar-delimited match.  A numeric token is appended as it is, and it is
    its own normal form.  In the fallback the working text is appended as it
    is, without any normalization. *)
Theorem cleanse_by_branch (pred : str) :
  match locate pred with
  | Dollar c => cleanse pred = normalize_final_answer c
  | Number t => cleanse pred = t /\ normalize_final_answer t = t
  | Raw w => cleanse pred = w /\ w = working_text pred
  end.
Proof.
  unfold cleanse. destruct (locate pred) as [c|t|w] eqn:E; [reflexivity| |].
  - split; [reflexivity|]. unfold locate in E. cbv zeta in E.
    destruct (findall_group DOLLAR_SPAN (working_text pred)); [|discriminate].
    destruct (findall NUMBER (working_text pred)) as [|n ns] eqn:En; [discriminate|].
    injection E as <-. apply normalize_numeric.
    apply (@number_token (working_text pred)). rewrite En.
    apply (@last_In (n :: ns)). discriminate.
  - split; [reflexivity|]. unfold locate in E. cbv zeta in E.
    destruct (findall_group DOLLAR_SPAN (working_text pred)); [|discriminate].
    destruct (findall NUMBER (working_text pred)); [|discriminate].
    now injection E as <-.
Qed.

(** C1 as stated fails in the fallback: the text has neither a dollar pair
    nor a digit, it is appended as it is, and its normal form is another
    text.  In the dollar branch the two pipelines come after the cut at the
    last equals sign. *)
Lemma cleanse_counterexample :
  (locate (lit "a b") = Raw (lit "a b")
   /\ cleanse (lit "a b") = lit "a b"
   /\ substitute (lit "a b") = lit "b"
   /\ normalize_final_answer (lit "a b") = lit "b"
   /\ cleanse (lit "a b") <> normalize_final_answer (selected (locate (lit "a b"))))
  /\ (locate (lit "$x=5$") = Dollar (lit "x=5")
      /\ cleanse (lit "$x=5$") = lit "5"
      /\ strip_commas (unwrap (substitute (lit "x=5"))) = lit "x=5").
Proof. repeat split. discriminate. Qed.

(** ** Scorer *)

Section Scorer.

(** A string that does not end with NUL is stored as it is. *)
Lemma unicode_item_exact (s : str) : List.last s "a"%char <> nul -> Np.unicode_item s = s.
Proof.
  unfold Np.unicode_item. intros H.
  destruct (rev s) as [|c r] eqn:E.
  - apply (f_equal (@rev ascii)) in E. rewrite rev_involutive in E. now subst.
  - assert (Hs : s = rev r ++ [c]).
    { rewrite <- (rev_involutive s), E. reflexivity. }
    rewrite Hs, last_last in H. simpl.
    destruct (Ascii.eqb_spec c nul) as [->|_]; [contradiction|].
    now rewrite Hs.
Qed.

Lemma combine_map_some (preds refs : list str) :
  combine preds (map Some refs)
  = map (fun pr => (fst pr, Some (snd pr))) (combine preds refs).
Proof.
  revert refs; induction preds as [|p preds IH]; intros [|r refs]; simpl;
    try reflexivity.
  now rewrite IH.
Qed.

Lemma all_strings_map_some (refs : list str) : Np.all_strings (map Some refs) = true.
Proof. induction refs; simpl; auto. Qed.

Lemma count_true_map (B : Type) (f : B -> bool) (l : list B) :
  Np.count_true (map f l) = length (filter f l).
Proof.
  unfold Np.count_true. induction l as [|b l IH]; simpl; [reflexivity|].
  destruct (f b); simpl; now rewrite IH.
Qed.

Lemma equal_pairs_bound (preds refs : list str) :
  equal_pairs preds refs <= length preds.
Proof.
  unfold equal_pairs. etransitivity; [apply filter_length_le|].
  rewrite length_combine. lia.
Qed.

Lemma score_same_length (preds refs : list str) :
  length preds = length refs ->
  score preds (map Some refs)
  = Some (Np.mean (map (fun pr => same_item (fst pr) (snd pr)) (combine preds refs))).
Proof.
  intros Hlen. unfold score, Np.equal.
  rewrite length_map, Hlen, Nat.eqb_refl, all_strings_map_some, combine_map_some, map_map.
  reflexivity.
Qed.

End Scorer.

(** C7, as the code has it.  For two collections of strings of the same
    length, not empty, the score is the number of positions at which the two
    strings are the same array item, divided by the number of pairs, and it
    lies between 0 and 1.  Two strings are the same item when they are equal
    once their trailing NUL characters are dropped: for strings that do not
    end with NUL this is equality character by character, with no trimming
    and no case folding. *)
Theorem score_fraction (preds refs : list str) :
  length preds = length refs -> preds <> [] ->
  let q := (Z.of_nat (equal_pairs preds refs) # Pos.of_nat (length preds))%Q in
  score preds (map Some refs) = Some (Np.Num q)
  /\ (0 <= q)%Q /\ (q <= 1)%Q
  /\ (forall p r,
        List.last p "a"%char <> nul -> List.last r "a"%char <> nul ->
        (same_item p r = true <-> p = r)).
Proof.
  intros Hlen Hne q. split; [|split; [|split]].
  - rewrite (score_same_length Hlen). unfold Np.mean, q, equal_pairs.
    rewrite count_true_map, length_map, length_combine, <- Hlen, Nat.min_id.
    destruct preds as [|p preds]; [congruence|].
    destruct refs as [|r refs]; [discriminate|]. reflexivity.
  - unfold q, Qle. simpl. lia.
  - unfold q, Qle. simpl. rewrite Z.mul_1_r.
    assert (Hn : length preds <> 0) by (destruct preds; simpl; congruence).
    rewrite <- positive_nat_Z, (Nat2Pos.id _ Hn).
    apply inj_le, equal_pairs_bound.
  - intros p r Hp Hr. unfold same_item.
    now rewrite str_eqb_eq, (unicode_item_exact Hp), (unicode_item_exact Hr).
Qed.

Lemma score_fraction_witness :
  score [lit "4"; lit "7"; lit "12 "] (map Some [lit "4"; lit "8"; lit "12"])
  = Some (Np.Num (1 # 3)).
Proof.
  apply (proj1 (@score_fraction [lit "4"; lit "7"; lit "12 "] [lit "4"; lit "8"; lit "12"]
                  eq_refl ltac:(discriminate))).
Defined.

(** C7 as stated fails: on two empty collections the mean is NaN, not a
    number of the interval; and two strings that differ by a trailing NUL
    count as equal. *)
Lemma score_fraction_counterexample :
  score [] (map Some []) = Some Np.NaN
  /\ (lit "a" ++ [nul] <> lit "a"
      /\ score [lit "a" ++ [nul]] (map Some [lit "a"]) = Some (Np.Num 1)).
Proof. repeat split. discriminate. Qed.

(** C2, as the code has it.  The reference of an item is the span the
    extractor returns for its solution, as it is ([None] when the marker is
    missing): no normalization is applied to it, and the score is computed
    against these spans. *)
Theorem references_raw (evaluation_data : list instance) (predictions : list str) :
  length (references evaluation_data) = length evaluation_data
  /\ (forall i instance,
        nth_error evaluation_data i = Some instance ->
        nth_error (references evaluation_data) i
        = Some (extract_inner_content (solution instance)))
  /\ calculate_metric evaluation_data predictions
     = score (map cleanse predictions)
             (map (fun instance => extract_inner_content (solution instance))
                  evaluation_data).
Proof.
  unfold references. split; [apply length_map|]. split; [|reflexivity].
  intros i instance H. now rewrite nth_error_map, H.
Qed.

Lemma references_raw_witness :
  nth_error (references [ {| problem := lit "How many?";
                             solution := lit "There are $\boxed{3,000}$." |} ]) 0
  = Some (Some (lit "3,000")).
Proof.
  exact (proj1 (proj2 (references_raw
           [ {| problem := lit "How many?";
                solution := lit "There are $\boxed{3,000}$." |} ] [])) 0
           {| problem := lit "How many?";
              solution := lit "There are $\boxed{3,000}$." |} eq_refl).
Defined.

(** C2 as stated fails: the reference is the extracted span, whose normal
    form is another string; a prediction in normal form is scored as wrong
    against it. *)
Lemma references_counterexample :
  let item := {| problem := lit "How many?";
                 solution := lit "There are $\boxed{3,000}$." |} in
  references [item] = [Some (lit "3,000")]
  /\ map normalized_reference [item] = [Some (lit "3000")]
  /\ references [item] <> map normalized_reference [item]
  /\ calculate_metric [item] [lit "The answer is $3,000$"] = Some (Np.Num 0).
Proof. repeat split. discriminate. Qed.

(** C3, as the code has it.  The Scorer makes no check of the lengths.  When
    they differ, the comparison of the two arrays fails if neither collection
    has exactly one element; a collection of exactly one element is compared
    with every element of the other one, and a score is returned. *)
Theorem calculate_metric_lengths
  (evaluation_data : list instance) (predictions : list str) :
  length predictions <> length evaluation_data ->
  (length predictions <> 1 /\ length evaluation_data <> 1 ->
   calculate_metric evaluation_data predictions = None)
  /\ (forall p, predictions = [p] ->
        calculate_metric evaluation_data predictions
        = Some (Np.mean (map (Np.item_eq (Np.all_strings (references evaluation_data))
                                         (cleanse p))
                             (references evaluation_data))))
  /\ (forall instance, evaluation_data = [instance] ->
        calculate_metric evaluation_data predictions
        = Some (Np.mean
                  (map (fun p =>
                          Np.item_eq (Np.all_strings (references evaluation_data))
                                     p (extract_inner_content (solution instance)))
                       (map cleanse predictions)))).
Proof.
  intros Hlen. unfold calculate_metric, score, Np.equal, answer_cleansing.
  assert (E : (length (map cleanse predictions) =? length (references evaluation_data))
              = false).
  { apply Nat.eqb_neq. unfold references. now rewrite !length_map. }
  rewrite E. split; [|split].
  - intros [Hp Hd].
    destruct predictions as [|p [|p' ps]]; simpl in *; try congruence;
      destruct evaluation_data as [|d [|d' ds]]; simpl in *; congruence.
  - intros p ->. reflexivity.
  - intros instance ->. destruct predictions as [|p [|p' ps]]; simpl in *;
      try congruence; reflexivity.
Qed.

Lemma calculate_metric_lengths_witness :
  calculate_metric
    [ {| problem := lit "a"; solution := lit "\boxed{4}" |};
      {| problem := lit "b"; solution := lit "\boxed{7}" |} ]
    [ lit "$4$"; lit "$7$"; lit "$9$" ] = None
  /\ calculate_metric
       [ {| problem := lit "a"; solution := lit "\boxed{4}" |};
         {| problem := lit "b"; solution := lit "\boxed{7}" |} ]
       [ lit "$4$" ] = Some (Np.Num (1 # 2))
  /\ calculate_metric
       [ {| problem := lit "a"; solution := lit "\boxed{4}" |} ]
       [ lit "$4$"; lit "$7$"; lit "$9$" ] = Some (Np.Num (1 # 3)).
Proof.
  split; [|split].
  - apply (proj1 (@calculate_metric_lengths
             [ {| problem := lit "a"; solution := lit "\boxed{4}" |};
               {| problem := lit "b"; solution := lit "\boxed{7}" |} ]
             [ lit "$4$"; lit "$7$"; lit "$9$" ] ltac:(discriminate))).
    split; discriminate.
  - apply (proj1 (proj2 (@calculate_metric_lengths
             [ {| problem := lit "a"; solution := lit "\boxed{4}" |};
               {| problem := lit "b"; solution := lit "\boxed{7}" |} ]
             [ lit "$4$" ] ltac:(discriminate))) (lit "$4$") eq_refl).
  - apply (proj2 (proj2 (@calculate_metric_lengths
             [ {| problem := lit "a"; solution := lit "\boxed{4}" |} ]
             [ lit "$4$"; lit "$7$"; lit "$9$" ] ltac:(discriminate)))
             {| problem := lit "a"; solution := lit "\boxed{4}" |} eq_refl).
Defined.

(** C3 as stated fails: one prediction against two items gives a score. *)
Lemma calculate_metric_lengths_counterexample :
  let evaluation_data :=
    [ {| problem := lit "a"; solution := lit "\boxed{4}" |};
      {| problem := lit "b"; solution := lit "\boxed{7}" |} ] in
  let predictions := [ lit "The answer is $4$" ] in
  length predictions <> length evaluation_data
  /\ calculate_metric evaluation_data predictions = Some (Np.Num (1 # 2)).
Proof. split; [discriminate|reflexivity]. Qed.

(** ** CandidateLocator *)

Section SplitLast.

(** A (c0 :: tail0)arator whose first character occurs nowhere else in it: two of its
    occurrences in a text never overlap. *)
Variables (c0 : ascii) (tail0 : str).
Hypothesis first_once : ~ In c0 tail0.

Lemma split_sep_absent (s : str) :
  forall cur,
    ~ occurs (c0 :: tail0) s -> Py.split_go (c0 :: tail0) 0 cur s = [rev cur ++ s].
Proof.
  induction s as [|x s IH]; intros cur Hs.
  - simpl. now rewrite app_nil_r.
  - cbn [Py.split_go].
    destruct (Py.starts_with (c0 :: tail0) (x :: s)) eqn:E.
    + exfalso. apply Hs. destruct (starts_with_inv E) as [t Ht]. now exists [], t.
    + rewrite IH.
      * simpl. now rewrite <- app_assoc.
      * intros (b & a & Hba). apply Hs. exists (x :: b), a. simpl. now rewrite Hba.
Qed.

Lemma split_go_skip (u t : str) :
  forall cur,
    Py.split_go (c0 :: tail0) (length u) cur (u ++ t)
    = Py.split_go (c0 :: tail0) 0 cur t.
Proof. induction u as [|x u IH]; intros cur; [reflexivity|apply IH]. Qed.

Lemma split_sep_found (t : str) (cur : str) :
  Py.starts_with (c0 :: tail0) t = true ->
  List.last (Py.split_go (c0 :: tail0) 0 cur t) []
  = List.last (Py.split_go (c0 :: tail0) (length tail0) [] (tl t)) [].
Proof.
  intros E. destruct t as [|x t]; [discriminate|].
  cbn [Py.split_go tl]. rewrite E.
  rewrite last_cons_not_nil by apply split_go_not_nil.
  cbn [length]. now rewrite Nat.sub_succ, Nat.sub_0_r.
Qed.

Lemma split_sep_last (n : nat) :
  forall a b cur, length a <= n ->
    List.last (Py.split_go (c0 :: tail0) 0 cur (a ++ (c0 :: tail0) ++ b)) []
    = List.last (Py.split_go (c0 :: tail0) 0 [] b) [].
Proof.
  induction n as [|n IH]; intros a b cur Hlen.
  - destruct a; [|simpl in Hlen; lia].
    cbn [app]. rewrite split_sep_found by apply (starts_with_app (c0 :: tail0) b).
    cbn [app tl]. now rewrite split_go_skip.
  - destruct a as [|x a]; [apply (IH [] b cur); simpl; lia|].
    destruct (Py.starts_with (c0 :: tail0) ((x :: a) ++ (c0 :: tail0) ++ b)) eqn:E.
    + rewrite (split_sep_found _ E). cbn [app tl].
      destruct (starts_with_inv E) as [t Ht].
      injection Ht as -> Ht.
      destruct (Nat.le_gt_cases (length tail0) (length a)) as [Hle|Hgt].
      * rewrite <- (firstn_skipn (length tail0) a), <- app_assoc.
        replace (length tail0) with (length (firstn (length tail0) a)) at 1
          by (rewrite length_firstn; lia).
        rewrite split_go_skip. apply IH.
        rewrite length_skipn. simpl in Hlen. lia.
      * exfalso. apply first_once.
        assert (H : nth_error (tail0 ++ t) (length a) = Some c0).
        { rewrite <- Ht, nth_error_app2, Nat.sub_diag by lia. reflexivity. }
        rewrite nth_error_app1 in H by lia.
        eapply nth_error_In; eauto.
    + cbn [app Py.split_go]. cbn [app] in E. rewrite E.
      apply IH. simpl in Hlen. lia.
Qed.

End SplitLast.

(** When the phrase occurs, the working text is what follows its last
    occurrence, trimmed; otherwise it is the prediction. *)
Lemma working_text_after_last (pred : str) :
  (forall a b, pred = a ++ THE_ANSWER_IS ++ b -> ~ occurs THE_ANSWER_IS b ->
     working_text pred = Py.strip b)
  /\ (~ occurs THE_ANSWER_IS pred -> working_text pred = pred).
Proof.
  unfold working_text, Py.contains. split.
  - intros a b -> Hb.
    destruct (Py.find THE_ANSWER_IS (a ++ THE_ANSWER_IS ++ b)) eqn:E.
    + f_equal. unfold Py.last_item, Py.split.
      change THE_ANSWER_IS with ("T"%char :: lit "he answer is ") in *.
      rewrite (@split_sep_last "T"%char (lit "he answer is ")
                 ltac:(simpl; intuition discriminate) (length a) a b [] (le_n _)).
      now rewrite split_sep_absent.
    + exfalso. apply find_none in E. apply E. now exists a, b.
  - intros H. apply find_none in H. now rewrite H.
Qed.

Lemma dollar_span_at (s rest : str) (cs : caps) :
  match_at DOLLAR_SPAN s = Some (rest, cs) ->
  exists c, s = "$"%char :: c ++ "$"%char :: rest /\ group cs 1 = c
            /\ ~ In "$"%char c /\ ~ In newline c.
Proof.
  unfold match_at, DOLLAR_SPAN. cbn [run].
  destruct s as [|x s]; [discriminate|].
  destruct (Ascii.eqb_spec x "$"%char) as [->|]; [|discriminate].
  intros H. apply star_lazy_first in H as (w & s' & -> & Hw & Hk & Hfirst).
  destruct s' as [|y s']; [discriminate|].
  destruct (Ascii.eqb_spec y "$"%char) as [->|]; [|discriminate].
  injection Hk as <- <-. exists w. repeat split.
  - cbn [group Nat.eqb].
    replace (length (w ++ "$"%char :: s') - S (length s')) with (length w + 0)
      by (rewrite length_app; simpl; lia).
    now rewrite firstn_app_2, firstn_O, app_nil_r.
  - intros Hin. apply in_split in Hin as (w1 & w2 & ->).
    specialize (Hfirst w1 "$"%char w2 eq_refl). cbn in Hfirst. discriminate.
  - intros Hin. rewrite forallb_forall in Hw. specialize (Hw _ Hin). discriminate.
Qed.

(** The content of a dollar-delimited match holds neither a dollar nor a
    newline, and stands between two dollars in the text. *)
Lemma dollar_span_content (text c : str) :
  In c (findall_group DOLLAR_SPAN text) ->
  occurs ("$"%char :: c ++ ["$"%char]) text /\ ~ In "$"%char c /\ ~ In newline c.
Proof.
  unfold findall_group. intros H. apply in_flat_map in H as (p & Hp & Hc).
  destruct p as [|w cs]; [contradiction|]. destruct Hc as [<-|[]].
  apply scan_found in Hp as (before & rest & -> & Hm).
  destruct (dollar_span_at Hm) as (c & Hw & <- & Hd & Hn).
  repeat split; auto.
  exists before, rest. rewrite Hw. simpl. now rewrite <- app_assoc.
Qed.

(** The order of the heuristics: the last dollar-delimited content if there
    is one, else the last numeric token if there is one, else the working
    text.  A numeric token is a decimal (an optional sign, digits or none, a
    point, digits) or a run of digits without a sign. *)
Lemma locate_first_match (pred : str) :
  (forall spans c,
      findall_group DOLLAR_SPAN (working_text pred) = spans ++ [c] ->
      locate pred = Dollar c
      /\ occurs ("$"%char :: c ++ ["$"%char]) (working_text pred)
      /\ ~ In "$"%char c /\ ~ In newline c)
  /\ (forall tokens t,
        findall_group DOLLAR_SPAN (working_text pred) = [] ->
        findall NUMBER (working_text pred) = tokens ++ [t] ->
        locate pred = Number t /\ matches NUMBER t)
  /\ (findall_group DOLLAR_SPAN (working_text pred) = [] ->
      findall NUMBER (working_text pred) = [] ->
      locate pred = Raw (working_text pred)).
Proof.
  unfold locate. cbv zeta. split; [|split].
  - intros spans c E. split.
    + rewrite E, last_last. now destruct spans.
    + apply dollar_span_content. rewrite E. apply in_or_app. right. now left.
  - intros tokens t -> E. rewrite E, last_last. split; [now destruct tokens|].
    apply (@findall_matches NUMBER (working_text pred)).
    rewrite E. apply in_or_app. right. now left.
  - now intros -> ->.
Qed.

(** C6 on a negative integer.  The sign belongs to the first alternative of
    the pattern only, the one with a decimal point: a negative decimal keeps
    its sign, a negative integer loses it. *)
Theorem locate_negative_integer :
  locate (lit "The answer is -5") = Number (lit "5")
  /\ cleanse (lit "The answer is -5") = lit "5"
  /\ locate (lit "The answer is -5.0") = Number (lit "-5.0")
  /\ findall NUMBER (lit "-5") = [lit "5"].
Proof. repeat split. Qed.

(** * Further properties *)

(** ** BraceExtractor, on every text *)

Section ExtractorCases.

Lemma find_from_first (sub s : str) :
  forall i j,
    Py.find_from sub s i = Some j ->
    exists pre post,
      s = pre ++ sub ++ post /\ j = i + length pre
      /\ (forall pre' post', s = pre' ++ sub ++ post' -> length pre <= length pre').
Proof.
  induction s as [|c s IH]; intros i j; simpl.
  - destruct (Py.starts_with sub []) eqn:E; [|discriminate].
    intros [= <-]. destruct (starts_with_inv E) as [t Ht].
    exists [], t. repeat split; auto. simpl. intros. lia.
  - destruct (Py.starts_with sub (c :: s)) eqn:E.
    + intros [= <-]. destruct (starts_with_inv E) as [t Ht].
      exists [], t. repeat split; auto. simpl. intros. lia.
    + intros H. destruct (IH _ _ H) as (pre & post & -> & -> & Hmin).
      exists (c :: pre), post. repeat split; [simpl; lia|].
      intros [|x pre'] post' Heq; simpl in Heq.
      * rewrite Heq, starts_with_app in E. discriminate.
      * injection Heq as _ Heq. simpl. apply le_n_S. eauto.
Qed.

Lemma brace_step_zero (d : nat) (c : ascii) :
  0 < d -> brace_step d c = 0 -> c = "}"%char /\ d = 1.
Proof.
  unfold brace_step. intros Hd.
  destruct (Ascii.eqb c "{"%char); [lia|].
  destruct (Ascii.eqb_spec c "}"%char) as [->|]; [split; [reflexivity|lia]|lia].
Qed.

(** The loop either stops just after the brace that closes the box, or runs
    to the end of the text with a positive depth. *)
Lemma brace_loop_cases (rest : str) :
  forall d end_,
    0 < d ->
    (exists body tail,
        rest = body ++ "}"%char :: tail /\ depth_after d body = Some 1
        /\ brace_loop rest d end_ = end_ + length body + 1)
    \/ (exists d', depth_after d rest = Some d'
                   /\ brace_loop rest d end_ = end_ + length rest).
Proof.
  induction rest as [|c rest IH]; intros d end_ Hd.
  - right. exists d. destruct d; simpl; auto.
  - destruct d as [|d0]; [lia|]. cbn [brace_loop depth_after].
    destruct (brace_step (S d0) c) as [|n] eqn:E.
    + destruct (brace_step_zero Hd E) as [-> [= ->]].
      left. exists [], rest. rewrite brace_loop_closed. repeat split. simpl. lia.
    + destruct (IH (S n) (end_ + 1) (Nat.lt_0_succ n))
        as [(body & tail & -> & Hdepth & Hloop)|(d' & Hdepth & Hloop)].
      * left. exists (c :: body), tail. cbn [depth_after]. rewrite E.
        repeat split; auto. rewrite Hloop. simpl. lia.
      * right. exists d'. split; auto. rewrite Hloop. simpl. lia.
Qed.

Lemma depth_after_count (s : str) :
  forall d d',
    0 < d -> depth_after d s = Some d' ->
    d' + count_occ ascii_dec s "}"%char = d + count_occ ascii_dec s "{"%char.
Proof.
  induction s as [|c s IH]; intros d d' Hd H; simpl in H.
  - injection H as <-. simpl. lia.
  - destruct (brace_step d c) as [|n] eqn:E; [discriminate|].
    specialize (IH _ _ (Nat.lt_0_succ n) H). unfold brace_step in E.
    cbn [count_occ].
    destruct (Ascii.eqb_spec c "{"%char) as [->|H1].
    + destruct (ascii_dec "{"%char "}"%char) as [D|_]; [discriminate D|].
      destruct (ascii_dec "{"%char "{"%char) as [_|D]; [lia|congruence].
    + destruct (Ascii.eqb_spec c "}"%char) as [->|H2].
      * destruct (ascii_dec "}"%char "}"%char) as [_|D]; [|congruence].
        destruct (ascii_dec "}"%char "{"%char) as [D|_]; [discriminate D|lia].
      * destruct (ascii_dec c "}"%char) as [D|_]; [congruence|].
        destruct (ascii_dec c "{"%char) as [D|_]; [congruence|lia].
Qed.

Lemma skipn_marker (pre post : str) :
  skipn (length pre + 7) (pre ++ BOXED ++ post) = post.
Proof.
  rewrite skipn_app, skipn_all2 by lia.
  replace (length pre + 7 - length pre) with 7 by lia. reflexivity.
Qed.

End ExtractorCases.

(** X1. What the extractor returns stands in the text right after the first
    occurrence of the marker. *)
Theorem extract_after_first_marker (text span : str) :
  extract_inner_content text = Some span ->
  exists pre rest,
    text = pre ++ BOXED ++ span ++ rest
    /\ (forall pre' post', text = pre' ++ BOXED ++ post' -> length pre <= length pre').
Proof.
  unfold extract_inner_content, Py.find.
  destruct (Py.find_from BOXED text 0) as [i|] eqn:E; [|discriminate].
  intros [= <-].
  destruct (find_from_first E) as (pre & post & -> & -> & Hmin).
  exists pre. unfold Py.slice. cbn [Nat.add]. rewrite skipn_marker.
  exists (skipn (brace_loop post 1 (length pre + 7) - 1 - (length pre + 7)) post).
  split; [|exact Hmin].
  now rewrite firstn_skipn.
Qed.

Lemma extract_after_first_marker_witness :
  exists pre rest,
    lit "a \boxed{1} and \boxed{2}" = pre ++ BOXED ++ lit "1" ++ rest
    /\ (forall pre' post',
          lit "a \boxed{1} and \boxed{2}" = pre' ++ BOXED ++ post' ->
          length pre <= length pre').
Proof.
  apply (@extract_after_first_marker (lit "a \boxed{1} and \boxed{2}") (lit "1")).
  reflexivity.
Defined.

(** X2. What the extractor returns is of one of two kinds.  Either it is
    followed in the text by the closing brace of the box, and then its braces
    are balanced; or the box is never closed, and then it is the whole text
    after the marker less its last character. *)
Theorem extract_closed_or_open (text span : str) :
  extract_inner_content text = Some span ->
  (exists pre rest,
      text = pre ++ BOXED ++ span ++ "}"%char :: rest
      /\ depth_after 1 span = Some 1 /\ balanced span)
  \/ (exists pre suffix d,
        text = pre ++ BOXED ++ suffix
        /\ depth_after 1 suffix = Some d /\ span = removelast suffix).
Proof.
  unfold extract_inner_content, Py.find.
  destruct (Py.find_from BOXED text 0) as [i|] eqn:E; [|discriminate].
  intros [= <-].
  destruct (find_from_first E) as (pre & post & -> & -> & _).
  unfold Py.slice. cbn [Nat.add]. rewrite skipn_marker.
  destruct (@brace_loop_cases post 1 (length pre + 7) Nat.lt_0_1)
    as [(body & tail & -> & Hdepth & ->)|(d & Hdepth & ->)].
  - left. exists pre, tail.
    replace (length pre + 7 + length body + 1 - 1 - (length pre + 7))
      with (length body + 0) by lia.
    rewrite firstn_app_2, firstn_O, app_nil_r. repeat split; auto.
    pose proof (depth_after_count Nat.lt_0_1 Hdepth) as Hc. unfold balanced. lia.
  - right. exists pre, post, d. repeat split; auto.
    rewrite removelast_firstn_len. f_equal. lia.
Qed.

Lemma extract_closed_or_open_witness :
  (exists pre rest,
      lit "\boxed{\frac{1}{2}}." = pre ++ BOXED ++ lit "\frac{1}{2}" ++ "}"%char :: rest
      /\ depth_after 1 (lit "\frac{1}{2}") = Some 1 /\ balanced (lit "\frac{1}{2}"))
  \/ (exists pre suffix d,
        lit "\boxed{\frac{1}{2}}." = pre ++ BOXED ++ suffix
        /\ depth_after 1 suffix = Some d /\ lit "\frac{1}{2}" = removelast suffix).
Proof.
  apply (@extract_closed_or_open (lit "\boxed{\frac{1}{2}}.") (lit "\frac{1}{2}")).
  reflexivity.
Defined.

(** ** Occurrences *)

Section Occurrences.

Lemma occurs_refl (s : str) : occurs s s.
Proof. exists [], []. now rewrite app_nil_r. Qed.

Lemma occurs_trans (a b c : str) : occurs a b -> occurs b c -> occurs a c.
Proof.
  intros (p & q & ->) (p' & q' & ->).
  exists (p' ++ p), (q ++ q'). now rewrite <- !app_assoc.
Qed.

Lemma occurs_app_l (sub a b : str) : occurs sub a -> occurs sub (a ++ b).
Proof. intros (p & q & ->). exists p, (q ++ b). now rewrite <- !app_assoc. Qed.

Lemma occurs_app_r (sub a b : str) : occurs sub b -> occurs sub (a ++ b).
Proof. intros (p & q & ->). exists (a ++ p), q. now rewrite <- !app_assoc. Qed.

(** An occurrence cannot sit across a character that the word does not
    hold. *)
Lemma occurs_split_char (sub a b : str) (c : ascii) :
  ~ In c sub -> occurs sub (a ++ c :: b) -> occurs sub a \/ occurs sub b.
Proof.
  intros Hc (p & q & Heq). symmetry in Heq.
  apply app_eq_app in Heq as (l & [[-> Hl]|[-> Hl]]).
  - destruct l as [|x l]; simpl in Hl.
    + destruct sub as [|y sub]; [left; exists a, []; now rewrite app_nil_r|].
      injection Hl as <- _. exfalso. apply Hc. now left.
    + injection Hl as _ ->. right. now exists l, q.
  - apply app_eq_app in Hl as (l2 & [[-> Hl]|[-> Hl]]).
    + destruct l2 as [|y l2]; simpl in Hl.
      * left. exists p, []. now rewrite !app_nil_r.
      * injection Hl as <- _. exfalso. apply Hc. apply in_or_app. right. now left.
    + left. now exists p, l2.
Qed.

Lemma find_from_shift (sub s : str) :
  forall i, Py.find_from sub s (S i) = option_map S (Py.find_from sub s i).
Proof.
  induction s as [|c s IH]; intros i; simpl;
    destruct (Py.starts_with sub _); auto.
Qed.

Lemma starts_with_app_long (sub u t : str) :
  length sub <= length u -> Py.starts_with sub (u ++ t) = Py.starts_with sub u.
Proof.
  revert u; induction sub as [|a sub IH]; intros [|b u] H; simpl in *;
    try reflexivity; try lia.
  now rewrite IH by lia.
Qed.

(** The first occurrence in a text is still the first one when the text goes
    on. *)
Lemma find_from_app (sub s t : str) :
  forall i j, Py.find_from sub s i = Some j -> Py.find_from sub (s ++ t) i = Some j.
Proof.
  induction s as [|c s IH]; intros i j; simpl.
  - destruct (Py.starts_with sub []) eqn:E; [|discriminate].
    destruct sub; [|discriminate]. intros [= <-]. now destruct t.
  - destruct (Py.starts_with sub (c :: s)) eqn:E.
    + intros [= <-]. destruct (starts_with_inv E) as [u Hu].
      change (c :: s ++ t) with ((c :: s) ++ t).
      now rewrite Hu, <- app_assoc, starts_with_app.
    + intros H. destruct (find_from_first H) as (pre & post & Hs & _ & _).
      change (c :: s ++ t) with ((c :: s) ++ t).
      rewrite starts_with_app_long, E; [now apply IH|].
      rewrite Hs. simpl. rewrite !length_app. lia.
Qed.

End Occurrences.

(** ** Formatting an item *)

Section Formatting.

Lemma brace_loop_stops (body rest : str) (end_ : nat) :
  depth_after 1 body = Some 1 ->
  brace_loop (body ++ "}"%char :: rest) 1 end_ = end_ + length body + 1.
Proof.
  intros H. rewrite (@brace_loop_app body ("}"%char :: rest) 1 1 end_ Nat.lt_0_1 H).
  simpl. apply brace_loop_closed.
Qed.

Lemma extract_of_terminated (text body rest : str) (i : nat) :
  Py.find BOXED text = Some i ->
  skipn (i + 7) text = body ++ "}"%char :: rest ->
  depth_after 1 body = Some 1 ->
  extract_inner_content text = Some body /\ i + 7 <= length text.
Proof.
  intros Hfind Hskip Hdepth. split.
  - unfold extract_inner_content, Py.slice. rewrite Hfind. cbv zeta.
    rewrite Hskip, (brace_loop_stops _ _ Hdepth).
    replace (i + 7 + length body + 1 - 1 - (i + 7)) with (length body + 0) by lia.
    now rewrite firstn_app_2, firstn_O, app_nil_r.
  - destruct (Nat.le_gt_cases (i + 7) (length text)) as [H|H]; [exact H|].
    rewrite skipn_all2 in Hskip by lia. now destruct body.
Qed.

End Formatting.

(** X3. Formatting an item rewrites its solution in place, and yet leaves its
    reference as it was, when the box of the solution is closed and when the
    solution has no marker at all: the extractor returns the same on the
    rewritten solution as on the original one. *)
Theorem format_keeps_reference (item : instance) :
  terminated (solution item) \/ ~ occurs BOXED (solution item) ->
  extract_inner_content (solution (fst (format_instance item)))
  = extract_inner_content (solution item).
Proof.
  unfold format_instance. cbn [fst solution problem].
  set (sol := solution item).
  intros [(i & body & rest & Hfind & Hskip & Hdepth)|Habsent].
  - destruct (extract_of_terminated Hfind Hskip Hdepth) as [-> Hlen].
    cbn [str_of].
    set (tail := (newline :: lit "The answer is $") ++ body ++ lit "$").
    apply (@extract_of_terminated _ body (rest ++ tail) (S i)).
    + unfold Py.find in *. cbn [lit list_ascii_of_string app].
      cbn [Py.find_from]. change (Py.starts_with BOXED (" "%char :: sol ++ tail)) with false.
      cbv iota. rewrite find_from_shift, (find_from_app tail Hfind). reflexivity.
    + cbn [lit list_ascii_of_string app Nat.add skipn].
      rewrite skipn_app, Hskip.
      replace (i + 7 - length sol) with 0 by lia.
      cbn [skipn]. now rewrite <- app_assoc.
    + exact Hdepth.
  - assert (E : extract_inner_content sol = None).
    { unfold extract_inner_content. apply find_none in Habsent. now rewrite Habsent. }
    rewrite E. cbn [str_of].
    unfold extract_inner_content.
    assert (Hnew : Py.find BOXED
              (lit " " ++ sol ++ (newline :: lit "The answer is $") ++ lit "None" ++ lit "$")
              = None).
    { apply find_none. intros Hocc.
      change (lit " " ++ sol ++ (newline :: lit "The answer is $") ++ lit "None" ++ lit "$")
        with ([] ++ " "%char :: (sol ++ newline :: lit "The answer is $None$")) in Hocc.
      assert (Hsp : ~ In " "%char BOXED) by (simpl; intuition discriminate).
      assert (Hnl : ~ In newline BOXED) by (simpl; intuition discriminate).
      destruct (occurs_split_char Hsp Hocc) as [Hocc1|Hocc1].
      - exact (proj1 (find_none BOXED []) eq_refl Hocc1).
      - destruct (occurs_split_char Hnl Hocc1) as [Hocc2|Hocc2]; [contradiction|].
        exact (proj1 (find_none BOXED (lit "The answer is $None$")) eq_refl Hocc2). }
    now rewrite Hnew.
Qed.

Lemma format_keeps_reference_witness :
  extract_inner_content
    (solution (fst (format_instance
       {| problem := lit "Half of one?"; solution := lit "It is \boxed{\frac{1}{2}}." |})))
  = Some (lit "\frac{1}{2}")
  /\ extract_inner_content
       (solution (fst (format_instance
          {| problem := lit "Why?"; solution := lit "No box here." |})))
     = None.
Proof.
  split.
  - apply (@format_keeps_reference
             {| problem := lit "Half of one?"; solution := lit "It is \boxed{\frac{1}{2}}." |}).
    left. exists 6, (lit "\frac{1}{2}"), (lit "."). repeat split.
  - apply (@format_keeps_reference
             {| problem := lit "Why?"; solution := lit "No box here." |}).
    right. apply find_none. reflexivity.
Defined.

(** ** The answer of a formatted item, read back *)

Section ReadBack.

Variable A : Type.

(** The lazy repetition goes on as long as the rest of the pattern fails. *)
Lemma star_lazy_complete (p : ascii -> bool) (k : str -> option A) (w s' : str) (a : A) :
  forallb p w = true ->
  (forall w1 y w2, w = w1 ++ y :: w2 -> k (y :: w2 ++ s') = None) ->
  k s' = Some a ->
  star_lazy p k (w ++ s') = Some a.
Proof.
  induction w as [|c w IH]; intros Hp Hfail Hk.
  - destruct s'; simpl; now rewrite Hk.
  - simpl in Hp. apply andb_true_iff in Hp as [Hc Hw].
    cbn [app star_lazy]. rewrite (Hfail [] c w eq_refl), Hc.
    apply IH; auto. intros w1 y w2 ->. exact (Hfail (c :: w1) y w2 eq_refl).
Qed.

End ReadBack.

Section ReadBackDollar.

Lemma dollar_span_match (c rest : str) :
  ~ In "$"%char c -> ~ In newline c ->
  match_at DOLLAR_SPAN ("$"%char :: c ++ "$"%char :: rest) = Some (rest, [(1, c)]).
Proof.
  intros Hd Hn. unfold match_at, DOLLAR_SPAN. cbn [run]. rewrite Ascii.eqb_refl.
  apply star_lazy_complete.
  - apply forallb_forall. intros x Hx. unfold dot.
    destruct (Ascii.eqb_spec x newline) as [->|]; [contradiction|reflexivity].
  - intros w1 y w2 ->.
    destruct (Ascii.eqb_spec y "$"%char) as [->|]; [|reflexivity].
    exfalso. apply Hd, in_or_app. right. now left.
  - rewrite Ascii.eqb_refl. do 3 f_equal.
    replace (length (c ++ "$"%char :: rest) - length ("$"%char :: rest))
      with (length c + 0) by (rewrite length_app; lia).
    now rewrite firstn_app_2, firstn_O, app_nil_r.
Qed.

Lemma scan_skip (r : regex) (s : str) : forall k, length s <= k -> scan r k s = [].
Proof.
  induction s as [|x s IH]; intros k Hk; [reflexivity|].
  destruct k as [|k]; simpl in Hk; [lia|]. apply IH. lia.
Qed.

Lemma findall_one_dollar_span (c : str) :
  ~ In "$"%char c -> ~ In newline c ->
  findall_group DOLLAR_SPAN ("$"%char :: c ++ ["$"%char]) = [c].
Proof.
  intros Hd Hn. unfold findall_group.
  rewrite scan_here, (dollar_span_match [] Hd Hn).
  cbn [length Nat.sub]. rewrite scan_skip by reflexivity. reflexivity.
Qed.

Lemma lstrip_fixed (x : ascii) (s : str) : Py.isspace x = false -> Py.lstrip (x :: s) = x :: s.
Proof. intros H. simpl. now rewrite H. Qed.

Lemma strip_fixed (x y : ascii) (m : str) :
  Py.isspace x = false -> Py.isspace y = false ->
  Py.strip (x :: m ++ [y]) = x :: m ++ [y].
Proof.
  intros Hx Hy. unfold Py.strip. rewrite (lstrip_fixed _ Hx).
  change (x :: m ++ [y]) with ((x :: m) ++ [y]) at 1.
  rewrite rev_app_distr. cbn [rev app]. rewrite (lstrip_fixed _ Hy).
  change (y :: rev m ++ [x]) with ([y] ++ rev (x :: m)).
  now rewrite rev_app_distr, rev_involutive.
Qed.

End ReadBackDollar.

(** X4. The target of a formatted item ends with its answer between dollars
    after the phrase, and the cleansing reads it back: when the extracted
    answer holds no dollar, no newline and not the phrase, cleansing the
    target gives the normal form of the extracted answer. *)
Theorem cleanse_formatted_target (item : instance) (ans : str) :
  extract_inner_content (solution item) = Some ans ->
  ~ In "$"%char ans -> ~ In newline ans -> ~ occurs THE_ANSWER_IS ans ->
  cleanse (target (snd (format_instance item))) = normalize_final_answer ans.
Proof.
  intros Hans Hd Hn Hp. unfold format_instance. cbn [snd target solution problem].
  rewrite Hans. cbn [str_of].
  set (b := "$"%char :: ans ++ ["$"%char]).
  assert (Hb : ~ occurs THE_ANSWER_IS b).
  { assert (Hnot : ~ In "$"%char THE_ANSWER_IS) by (simpl; intuition discriminate).
    intros Hocc. unfold b in Hocc.
    destruct (@occurs_split_char THE_ANSWER_IS [] (ans ++ ["$"%char]) _ Hnot Hocc)
      as [H|H].
    - exact (proj1 (find_none THE_ANSWER_IS []) eq_refl H).
    - destruct (occurs_split_char Hnot H) as [H'|H']; [contradiction|].
      exact (proj1 (find_none THE_ANSWER_IS []) eq_refl H'). }
  assert (Hw : working_text
                 (lit " " ++ solution item ++ (newline :: lit "The answer is $")
                  ++ ans ++ lit "$") = b).
  { rewrite (proj1 (working_text_after_last _) (lit " " ++ solution item ++ [newline]) b).
    - apply (@strip_fixed "$"%char "$"%char ans); reflexivity.
    - unfold b. rewrite <- !app_assoc. reflexivity.
    - exact Hb. }
  unfold cleanse, locate. cbv zeta. rewrite Hw. unfold b.
  now rewrite (findall_one_dollar_span Hd Hn).
Qed.

Lemma cleanse_formatted_target_witness :
  cleanse (target (snd (format_instance
     {| problem := lit "How many?"; solution := lit "There are $\boxed{3,000}$." |})))
  = normalize_final_answer (lit "3,000").
Proof.
  apply (@cleanse_formatted_target
           {| problem := lit "How many?"; solution := lit "There are $\boxed{3,000}$." |}
           (lit "3,000")).
  - reflexivity.
  - simpl. intuition discriminate.
  - simpl. intuition discriminate.
  - apply find_none. reflexivity.
Defined.

(** ** Characters the passes cannot bring in *)

Section Characters.

Lemma replace_go_chars (old new : str) (c : ascii) (s : str) :
  forall k, In c (Py.replace_go old new k s) -> In c s \/ In c new.
Proof.
  induction s as [|x s IH]; intros k H; simpl in H; [contradiction|].
  destruct k as [|k].
  - destruct (Py.starts_with old (x :: s)).
    + apply in_app_or in H as [H|H]; [now right|].
      destruct (IH _ H); [left; now right|now right].
    + destruct H as [->|H]; [left; now left|].
      destruct (IH _ H); [left; now right|now right].
  - destruct (IH _ H); [left; now right|now right].
Qed.

Lemma replace_keeps_out (old new s : str) (c : ascii) :
  ~ In c new -> ~ In c s -> ~ In c (Py.replace old new s).
Proof. intros Hn Hs H. destruct (replace_go_chars H); contradiction. Qed.

Lemma replace_char_out (c : ascii) (s : str) : ~ In c (Py.replace [c] [] s).
Proof.
  rewrite replace_char. intros H. apply filter_In in H as [_ H].
  now rewrite Ascii.eqb_refl in H.
Qed.

Lemma run_caps (A : Type) (r : regex) (s0 : str) :
  forall (s : str) (cs : caps) (k : str -> caps -> option A) (a : A),
    incl s s0 -> caps_within cs s0 ->
    run r s cs k = Some a ->
    exists s' cs', incl s' s0 /\ caps_within cs' s0 /\ k s' cs' = Some a.
Proof.
  assert (Htail : forall w s' : str, incl (w ++ s') s0 -> incl s' s0).
  { intros w s' H x Hx. apply H, in_or_app. now right. }
  induction r as [|c|p|r1 IH1 r2 IH2|r1 IH1 r2 IH2|p|p|p|p|n r0 IH];
    intros s cs k a Hs Hcs H; simpl in H.
  - now exists s, cs.
  - destruct s as [|x s]; [discriminate|].
    destruct (Ascii.eqb x c); [|discriminate].
    exists s, cs. repeat split; auto. exact (Htail [x] s Hs).
  - destruct s as [|x s]; [discriminate|].
    destruct (p x); [|discriminate].
    exists s, cs. repeat split; auto. exact (Htail [x] s Hs).
  - destruct (IH1 _ _ _ _ Hs Hcs H) as (s1 & cs1 & Hs1 & Hcs1 & H2).
    exact (IH2 _ _ _ _ Hs1 Hcs1 H2).
  - destruct (run r1 s cs k) as [a'|] eqn:E.
    + injection H as ->. exact (IH1 _ _ _ _ Hs Hcs E).
    + exact (IH2 _ _ _ _ Hs Hcs H).
  - destruct s as [|x s]; [now exists [], cs|].
    destruct (p x); [|now exists (x :: s), cs].
    destruct (k s cs) as [a'|] eqn:E.
    + injection H as ->. exists s, cs. repeat split; auto. exact (Htail [x] s Hs).
    + now exists (x :: s), cs.
  - destruct (star_greedy_sound H) as (w & s' & -> & _ & Hk).
    exists s', cs. repeat split; eauto.
  - destruct (star_lazy_sound H) as (w & s' & -> & _ & Hk).
    exists s', cs. repeat split; eauto.
  - destruct s as [|x s]; [discriminate|].
    destruct (p x); [|discriminate].
    destruct (star_greedy_sound H) as (w & s' & -> & _ & Hk).
    exists s', cs. repeat split; auto. exact (Htail (x :: w) s' Hs).
  - destruct (IH _ _ _ _ Hs Hcs H) as (s' & cs' & Hs' & Hcs' & Hk).
    exists s', ((n, firstn (length s - length s') s) :: cs'). repeat split; auto.
    intros m v c [[= <- <-]|Hin] Hc; [|eauto].
    apply Hs. rewrite <- (firstn_skipn (length s - length s') s).
    apply in_or_app. now left.
Qed.

Lemma match_at_caps (r : regex) (s rest : str) (cs : caps) :
  match_at r s = Some (rest, cs) -> caps_within cs s.
Proof.
  intros H. unfold match_at in H.
  destruct (@run_caps _ r s s [] _ _ (incl_refl s)
              ltac:(intros ? ? ? []) H) as (s' & cs' & _ & Hcs & [= _ <-]).
  exact Hcs.
Qed.

Lemma group_chars (cs : caps) (n : nat) (c : ascii) :
  In c (group cs n) -> exists v, In (n, v) cs /\ In c v.
Proof.
  induction cs as [|[m v] cs IH]; simpl; [contradiction|].
  destruct (Nat.eqb_spec m n) as [->|_].
  - intros H. exists v. auto.
  - intros H. destruct (IH H) as (v' & Hv & Hc). exists v'. auto.
Qed.

Lemma scan_skipped (r : regex) (s : str) :
  forall k c, In (Skipped c) (scan r k s) -> In c s.
Proof.
  induction s as [|x s IH]; intros k c H; [contradiction|].
  destruct k as [|k]; [|right; exact (IH _ _ H)].
  rewrite scan_here in H.
  destruct (match_at r (x :: s)) as [[rest cs]|].
  - destruct (length (x :: s) - length rest).
    + destruct H as [[= ->]|H]; [now left|right; eauto].
    + destruct H as [H|H]; [discriminate|right; eauto].
  - destruct H as [[= ->]|H]; [now left|right; eauto].
Qed.

Lemma sub_chars (r : regex) (tpl : list titem) (s : str) (c : ascii) :
  In c (sub r tpl s) -> In c s \/ In c (template_chars tpl).
Proof.
  unfold sub. intros H. apply in_flat_map in H as (p & Hp & Hc).
  destruct p as [x|w cs].
  - destruct Hc as [<-|[]]. left. eapply scan_skipped; eauto.
  - unfold expand in Hc. apply in_flat_map in Hc as (t & Ht & Hc).
    destruct t as [l|n].
    + right. unfold template_chars. apply in_flat_map. exists (TLit l). auto.
    + left. apply group_chars in Hc as (v & Hv & Hc).
      destruct (scan_found Hp) as (before & rest & -> & Hm).
      apply in_or_app. right. exact (match_at_caps Hm Hv Hc).
Qed.

Lemma sub_keeps_out (r : regex) (tpl : list titem) (s : str) (c : ascii) :
  existsb (Ascii.eqb c) (template_chars tpl) = false ->
  ~ In c s -> ~ In c (sub r tpl s).
Proof.
  intros Ht Hs H. destruct (sub_chars H) as [H'|H']; [contradiction|].
  assert (existsb (Ascii.eqb c) (template_chars tpl) = true); [|congruence].
  apply existsb_exists. exists c. split; auto. apply Ascii.eqb_refl.
Qed.

Lemma strip_commas_chars (s : str) (c : ascii) : In c (strip_commas s) -> In c s.
Proof.
  unfold strip_commas. rewrite replace_comma.
  destruct (Py.isdigit _); [|auto]. intros H. now apply filter_In in H.
Qed.

(** A table of replacements keeps a character out when no replacement holds
    it, and takes it out when one rule deletes it. *)
Lemma fold_keeps_out (B : Type) (old new : B -> str) (tbl : list B) (c : ascii) :
  forall s,
    (forall b, In b tbl -> ~ In c (new b)) -> ~ In c s ->
    ~ In c (fold_left (fun acc b => Py.replace (old b) (new b) acc) tbl s).
Proof.
  induction tbl as [|b tbl IH]; intros s Hnew Hs; simpl; [exact Hs|].
  apply IH; [intros; apply Hnew; now right|].
  apply replace_keeps_out; auto. apply Hnew. now left.
Qed.

Lemma fold_takes_out (B : Type) (old new : B -> str) (tbl : list B) (c : ascii) :
  forall s,
    (forall b, In b tbl -> ~ In c (new b)) ->
    (exists b, In b tbl /\ old b = [c] /\ new b = []) ->
    ~ In c (fold_left (fun acc b => Py.replace (old b) (new b) acc) tbl s).
Proof.
  induction tbl as [|b tbl IH]; intros s Hnew (b0 & Hb0 & Ho & Hn); [contradiction|].
  simpl. destruct Hb0 as [<-|Hb0].
  - apply fold_keeps_out; [intros; apply Hnew; now right|].
    rewrite Ho, Hn. apply replace_char_out.
  - apply IH; [intros; apply Hnew; now right|]. now exists b0.
Qed.

Lemma last_char_split (c : ascii) (s : str) :
  In c s -> exists a t, s = a ++ c :: t /\ ~ In c t.
Proof.
  induction s as [|x s IH]; [contradiction|]. intros H.
  destruct (in_dec ascii_dec c s) as [Hin|Hout].
  - destruct (IH Hin) as (a & t & -> & Ht). now exists (x :: a), t.
  - destruct H as [->|H]; [|contradiction]. now exists [], s.
Qed.

End Characters.

(** X5. The cut at the equals sign returns the end of the text that follows
    its last equals sign, or the whole text when it has none: what it returns
    ends the text, holds no equals sign, and whatever comes before it ends
    with an equals sign. *)
Theorem after_equals_suffix (s : str) :
  exists a,
    s = a ++ after_equals s
    /\ ~ In "="%char (after_equals s)
    /\ (a = [] \/ exists a', a = a' ++ ["="%char]).
Proof.
  destruct (in_dec ascii_dec "="%char s) as [Hin|Hout].
  - destruct (last_char_split Hin) as (a & t & -> & Ht).
    rewrite (after_equals_cut a Ht). exists (a ++ ["="%char]).
    rewrite <- app_assoc. repeat split; auto. right. now exists a.
  - rewrite (after_equals_absent Hout). exists []. auto.
Qed.

Section NeverHeld.

Lemma after_equals_no_equals (s : str) : ~ In "="%char (after_equals s).
Proof.
  destruct (in_dec ascii_dec "="%char s) as [Hin|Hout].
  - destruct (last_char_split Hin) as (a & t & -> & Ht). now rewrite (after_equals_cut a Ht).
  - now rewrite (after_equals_absent Hout).
Qed.

Lemma not_in_by_check (B : Type) (new : B -> str) (tbl : list B) (c : ascii) :
  forallb (fun b => negb (existsb (Ascii.eqb c) (new b))) tbl = true ->
  forall b, In b tbl -> ~ In c (new b).
Proof.
  intros H b Hb Hc. rewrite forallb_forall in H. specialize (H b Hb).
  apply negb_true_iff in H.
  assert (existsb (Ascii.eqb c) (new b) = true); [|congruence].
  apply existsb_exists. exists c. split; auto. apply Ascii.eqb_refl.
Qed.

(** The two tables, as folds over a table of replacements. *)
Lemma substitute_folds (s : str) :
  substitute s
  = fold_left (fun acc e => Py.replace ((fun e : str => e) e) ((fun _ : str => []) e) acc)
      REMOVED_EXPRESSIONS
      (fold_left (fun acc ba => Py.replace (fst ba) (snd ba) acc) SUBSTITUTIONS s).
Proof. reflexivity. Qed.

Lemma removals_keep_out (c : ascii) (s : str) :
  ~ In c s ->
  ~ In c (fold_left
            (fun acc e => Py.replace ((fun e : str => e) e) ((fun _ : str => []) e) acc)
            REMOVED_EXPRESSIONS s).
Proof. intros Hs. apply fold_keeps_out; auto. Qed.

End NeverHeld.

Ltac unwrap_keeps_out :=
  unfold unwrap; cbv zeta;
  apply replace_keeps_out; [simpl; tauto|];
  repeat (apply sub_keeps_out; [reflexivity|]).

(** X6. A normalized answer never holds a dollar, an equals sign, a space or
    a double quote, whatever the text it comes from. *)
Theorem normalized_never_holds (s : str) (c : ascii) :
  In c BANNED -> ~ In c (normalize_final_answer s).
Proof.
  intros Hc H. unfold normalize_final_answer in H. apply strip_commas_chars in H.
  revert H. destruct Hc as [<-|[<-|[<-|[<-|[]]]]].
  - unfold unwrap. cbv zeta. apply (@replace_char_out "$"%char).
  - unwrap_keeps_out. rewrite substitute_folds.
    apply removals_keep_out.
    apply fold_keeps_out; [apply not_in_by_check; reflexivity|].
    apply after_equals_no_equals.
  - unwrap_keeps_out. rewrite substitute_folds.
    apply removals_keep_out.
    apply fold_takes_out; [apply not_in_by_check; reflexivity|].
    exists (lit " ", lit ""). repeat split. simpl. tauto.
  - unwrap_keeps_out. rewrite substitute_folds.
    apply fold_takes_out; [auto|].
    exists [dquote]. repeat split. simpl. tauto.
Qed.

Lemma normalized_never_holds_witness :
  ~ In " "%char (normalize_final_answer (lit "the cost = $ 5 $ dollars"))
  /\ ~ In "="%char (normalize_final_answer (lit "the cost = $ 5 $ dollars")).
Proof.
  split.
  - apply (@normalized_never_holds (lit "the cost = $ 5 $ dollars") " "%char).
    simpl. tauto.
  - apply (@normalized_never_holds (lit "the cost = $ 5 $ dollars") "="%char).
    simpl. tauto.
Defined.

(** ** A number and its unit *)

Section Units.

(** No rule begins with a decimal digit: a replacement leaves the digits at
    the head of a text where they are and works on what follows them. *)
Lemma replace_after_digits (old new d t : str) :
  match old with x :: _ => digit x = false | [] => False end ->
  forallb digit d = true ->
  Py.replace old new (d ++ t) = d ++ Py.replace old new t.
Proof.
  destruct old as [|x old]; [contradiction|]. intros Hx.
  unfold Py.replace. induction d as [|y d IH]; intros Hd; [reflexivity|].
  simpl in Hd. apply andb_true_iff in Hd as [Hy Hd].
  cbn [app Py.replace_go Py.starts_with].
  destruct (Ascii.eqb_spec x y) as [->|_]; [congruence|].
  cbn [andb]. now rewrite IH.
Qed.

Lemma fold_after_digits (B : Type) (old new : B -> str) (tbl : list B) (d : str) :
  (forall b, In b tbl -> match old b with x :: _ => digit x = false | [] => False end) ->
  forallb digit d = true ->
  forall t,
    fold_left (fun acc b => Py.replace (old b) (new b) acc) tbl (d ++ t)
    = d ++ fold_left (fun acc b => Py.replace (old b) (new b) acc) tbl t.
Proof.
  intros Hold Hd. induction tbl as [|b tbl IH]; intros t; [reflexivity|].
  simpl. rewrite replace_after_digits; auto.
  - apply IH. intros; apply Hold; now right.
  - apply Hold. now left.
Qed.

Lemma head_not_digit_by_check (B : Type) (old : B -> str) (tbl : list B) :
  forallb (fun b => match old b with x :: _ => negb (digit x) | [] => false end) tbl = true ->
  forall b, In b tbl -> match old b with x :: _ => digit x = false | [] => False end.
Proof.
  intros H b Hb. rewrite forallb_forall in H. specialize (H b Hb).
  destruct (old b); [discriminate|]. now apply negb_true_iff.
Qed.

Lemma substitute_after_digits (d t : str) :
  forallb digit d = true -> substitute (d ++ t) = d ++ substitute t.
Proof.
  intros Hd. rewrite !substitute_folds.
  rewrite (@fold_after_digits _ fst snd SUBSTITUTIONS d
             (head_not_digit_by_check (old := fst) (tbl := SUBSTITUTIONS) eq_refl) Hd).
  now rewrite (@fold_after_digits _ (fun e : str => e) (fun _ : str => []) REMOVED_EXPRESSIONS d
                 (head_not_digit_by_check (old := fun e : str => e)
                    (tbl := REMOVED_EXPRESSIONS) eq_refl) Hd).
Qed.

Lemma digits_plain (d : str) : forallb digit d = true -> forallb numeric_char d = true.
Proof. apply forallb_weaken. apply digit_numeric. Qed.

End Units.

(** X7. A number followed by a unit: when a text is made of decimal digits
    followed by a text without equals sign that the two tables erase
    entirely (a unit word of the list, with its spaces), its normal form is
    the digits. *)
Theorem normalize_number_with_unit (d t : str) :
  forallb digit d = true -> ~ In "="%char t -> substitute t = [] ->
  normalize_final_answer (d ++ t) = d.
Proof.
  intros Hd Ht Hsub. unfold normalize_final_answer.
  assert (Hnum := digits_plain Hd).
  assert (Heq : ~ In "="%char (d ++ t)).
  { intros H. apply in_app_or in H as [H|H]; [|contradiction].
    rewrite forallb_forall in Hnum. specialize (Hnum _ H). discriminate. }
  rewrite (after_equals_absent Heq), (substitute_after_digits t Hd), Hsub, app_nil_r.
  pose proof (normalize_numeric Hnum) as Hfix. unfold normalize_final_answer in Hfix.
  assert (Hd' : ~ In "="%char d).
  { intros H. apply Heq, in_or_app. now left. }
  rewrite (after_equals_absent Hd') in Hfix.
  replace (substitute d) with d in Hfix; [exact Hfix|].
  rewrite <- (app_nil_r d) at 2. rewrite (substitute_after_digits [] Hd).
  now rewrite app_nil_r.
Qed.

Lemma normalize_number_with_unit_witness :
  normalize_final_answer (lit "120" ++ lit " square feet") = lit "120"
  /\ normalize_final_answer (lit "45" ++ lit "^\circ") = lit "45".
Proof.
  split.
  - apply (@normalize_number_with_unit (lit "120") (lit " square feet")).
    + reflexivity.
    + simpl. intuition discriminate.
    + reflexivity.
  - apply (@normalize_number_with_unit (lit "45") (lit "^\circ")).
    + reflexivity.
    + simpl. intuition discriminate.
    + reflexivity.
Defined.

(** ** Idempotence on plain texts *)

Section PlainIdempotence.

Lemma remove_commas_plain (s : str) :
  forallb plain_char s = true -> forallb plain_char (remove_commas s) = true.
Proof.
  intros H. apply forallb_forall. intros c Hc. apply filter_In in Hc as [Hc _].
  rewrite forallb_forall in H. auto.
Qed.

Lemma remove_commas_no_comma (s : str) : ~ In ","%char (remove_commas s).
Proof. intros H. apply filter_In in H as [_ H]. discriminate H. Qed.

Lemma digits_and_commas_no_brace (s : str) :
  only_digits_and_commas s = true -> ~ In "{"%char s.
Proof.
  intros H Hin. unfold only_digits_and_commas in H.
  rewrite forallb_forall in H. specialize (H _ Hin). discriminate H.
Qed.

End PlainIdempotence.

(** X8. On every text made of decimal digits, signs, points, commas and
    brackets only, in which the brace pair around a lone comma does not
    occur, the normalization is the final pass alone, and it is idempotent:
    so are [3,000], [-2.5] and [(1,2)] brought to a form that a second
    normalization leaves as it is. *)
Theorem normalize_idempotent_plain (s : str) :
  forallb plain_char s = true -> ~ occurs COMMA_IN_BRACES s ->
  normalize_final_answer s = strip_commas s
  /\ normalize_final_answer (normalize_final_answer s) = normalize_final_answer s.
Proof.
  intros Hs Hb. rewrite (normalize_plain Hs Hb). split; [reflexivity|].
  unfold strip_commas. rewrite replace_comma, isdigit_remove_commas.
  destruct (only_digits_and_commas s && existsb Py.isdigit_char s) eqn:E.
  - apply andb_true_iff in E as [E _].
    rewrite normalize_plain.
    + apply strip_commas_absent, remove_commas_no_comma.
    + now apply remove_commas_plain.
    + intros Hocc. apply (digits_and_commas_no_brace E).
      assert (H : In "{"%char (remove_commas s)) by (apply (occurs_In Hocc); now left).
      now apply filter_In in H.
  - rewrite (normalize_plain Hs Hb). unfold strip_commas.
    now rewrite replace_comma, isdigit_remove_commas, E.
Qed.

Lemma normalize_idempotent_plain_witness :
  normalize_final_answer (lit "-3,000.5") = strip_commas (lit "-3,000.5")
  /\ normalize_final_answer (normalize_final_answer (lit "3,000"))
     = normalize_final_answer (lit "3,000").
Proof.
  split.
  - apply (@normalize_idempotent_plain (lit "-3,000.5")); [reflexivity|].
    apply find_none. reflexivity.
  - apply (@normalize_idempotent_plain (lit "3,000")); [reflexivity|].
    apply find_none. reflexivity.
Defined.

(** ** The working text *)

Section WorkingText.

Lemma find_some_occurs (sub s : str) (i : nat) : Py.find sub s = Some i -> occurs sub s.
Proof.
  intros H. destruct (find_from_first H) as (pre & post & -> & _). now exists pre, post.
Qed.

Lemma occurs_dec (sub s : str) : {occurs sub s} + {~ occurs sub s}.
Proof.
  destruct (Py.find sub s) as [i|] eqn:E.
  - left. exact (find_some_occurs E).
  - right. now apply find_none.
Qed.

(** A text in which a word occurs ends with a last occurrence of it. *)
Lemma last_occurrence_split (x : ascii) (tl s : str) :
  occurs (x :: tl) s ->
  exists a b, s = a ++ (x :: tl) ++ b /\ ~ occurs (x :: tl) b.
Proof.
  induction s as [|y s IH]; intros Hocc.
  - destruct Hocc as ([|? ?] & q & H); discriminate.
  - destruct (occurs_dec (x :: tl) s) as [Hs|Hs].
    + destruct (IH Hs) as (a & b & -> & Hb). now exists (y :: a), b.
    + destruct Hocc as ([|z p] & q & H).
      * exists [], q. split; [exact H|]. intros Hq. apply Hs.
        simpl in H. injection H as _ ->. now apply occurs_app_r.
      * exfalso. apply Hs. injection H as _ ->. now exists p, q.
Qed.

Lemma lstrip_suffix (s : str) : exists l, s = l ++ Py.lstrip s.
Proof.
  induction s as [|c s IH]; [now exists []|]. simpl.
  destruct (Py.isspace c); [|now exists []].
  destruct IH as [l Hl]. exists (c :: l). simpl. now rewrite <- Hl.
Qed.

Lemma strip_occurs (s : str) : occurs (Py.strip s) s.
Proof.
  unfold Py.strip. destruct (lstrip_suffix s) as [l Hl].
  destruct (lstrip_suffix (rev (Py.lstrip s))) as [l2 Hl2].
  exists l, (rev l2). rewrite Hl at 1. f_equal.
  rewrite <- (rev_involutive (Py.lstrip s)) at 1. rewrite Hl2 at 1.
  now rewrite rev_app_distr.
Qed.

Lemma working_text_cases (pred : str) :
  (exists a b, pred = a ++ THE_ANSWER_IS ++ b /\ ~ occurs THE_ANSWER_IS b
               /\ working_text pred = Py.strip b)
  \/ (~ occurs THE_ANSWER_IS pred /\ working_text pred = pred).
Proof.
  destruct (occurs_dec THE_ANSWER_IS pred) as [H|H].
  - left. destruct (@last_occurrence_split "T"%char (lit "he answer is ") pred H)
      as (a & b & Hp & Hb).
    exists a, b. repeat split; auto.
    exact (proj1 (working_text_after_last pred) a b Hp Hb).
  - right. split; auto. exact (proj2 (working_text_after_last pred) H).
Qed.

End WorkingText.

(** X9. The working text is the text that follows the last occurrence of
    the phrase, trimmed, and the whole prediction when the phrase does not
    occur.  It is a part of the prediction in which the phrase no longer
    occurs, so that computing it a second time changes nothing. *)
Theorem working_text_settled (pred : str) :
  ((exists a b, pred = a ++ THE_ANSWER_IS ++ b /\ ~ occurs THE_ANSWER_IS b
                /\ working_text pred = Py.strip b)
   \/ (~ occurs THE_ANSWER_IS pred /\ working_text pred = pred))
  /\ occurs (working_text pred) pred
  /\ ~ occurs THE_ANSWER_IS (working_text pred)
  /\ working_text (working_text pred) = working_text pred.
Proof.
  split; [apply working_text_cases|].
  assert (H : occurs (working_text pred) pred
              /\ ~ occurs THE_ANSWER_IS (working_text pred)).
  { destruct (working_text_cases pred) as [(a & b & -> & Hb & ->)|[Hp ->]].
    - split.
      + apply occurs_app_r, occurs_app_r, strip_occurs.
      + intros H. apply Hb. exact (occurs_trans H (strip_occurs b)).
    - split; [apply occurs_refl|exact Hp]. }
  destruct H as [H1 H2]. repeat split; auto.
  exact (proj2 (working_text_after_last _) H2).
Qed.

(** ** The branch the locator takes *)

Section Branches.

Lemma findall_occurs (r : regex) (s w : str) : In w (findall r s) -> occurs w s.
Proof.
  unfold findall. intros H. apply in_flat_map in H as (p & Hp & Hw).
  destruct p as [|w' cs]; [contradiction|]. destruct Hw as [<-|[]].
  destruct (scan_found Hp) as (before & rest & -> & _). now exists before, rest.
Qed.

(** A pattern that cannot match the empty text and is found nowhere by the
    scan matches at no place of the text. *)
Lemma scan_all_skipped (r : regex) (s : str) :
  nullable r = false ->
  (forall w cs, ~ In (Matched w cs) (scan r 0 s)) ->
  forall before t, s = before ++ t -> t <> [] -> match_at r t = None.
Proof.
  intros Hnull. induction s as [|x s IH]; intros Hnone before t Heq Ht.
  - now destruct before, t.
  - rewrite scan_here in Hnone.
    assert (Hhere : match_at r (x :: s) = None).
    { destruct (match_at r (x :: s)) as [[rest cs]|] eqn:E; [|reflexivity].
      destruct (match_at_sound E) as (w & Hw & Hm).
      pose proof (matches_not_nil Hnull Hm) as Hwn.
      destruct (length (x :: s) - length rest) as [|n] eqn:En.
      - rewrite Hw, length_app in En. destruct w; [congruence|cbn [length] in En; lia].
      - exfalso. apply (Hnone (firstn (S n) (x :: s)) cs). now left. }
    rewrite Hhere in Hnone.
    destruct before as [|y before].
    + simpl in Heq. now subst t.
    + injection Heq as _ ->. apply (IH (fun w cs H => Hnone w cs (or_intror H)) before t);
        auto.
Qed.

Lemma findall_group_nil (r : regex) (s : str) :
  findall_group r s = [] -> forall w cs, ~ In (Matched w cs) (scan r 0 s).
Proof.
  unfold findall_group. intros H w cs Hin.
  assert (Hg : In (group cs 1) (flat_map
            (fun p => match p with Skipped _ => [] | Matched _ cs => [group cs 1] end)
            (scan r 0 s))).
  { apply in_flat_map. exists (Matched w cs). split; [exact Hin|now left]. }
  now rewrite H in Hg.
Qed.

Lemma findall_nil (r : regex) (s : str) :
  findall r s = [] -> forall w cs, ~ In (Matched w cs) (scan r 0 s).
Proof.
  unfold findall. intros H w cs Hin.
  assert (Hg : In w (flat_map
            (fun p => match p with Skipped _ => [] | Matched w _ => [w] end)
            (scan r 0 s))).
  { apply in_flat_map. exists (Matched w cs). split; [exact Hin|now left]. }
  now rewrite H in Hg.
Qed.

(** A dollar-delimited content is found if and only if the text holds a
    pair of dollars. *)
Lemma dollar_spans_nil (w : str) :
  findall_group DOLLAR_SPAN w = [] <-> ~ dollar_pair w.
Proof.
  split.
  - intros H (c & Hd & Hn & before & rest & ->).
    pose proof (@scan_all_skipped DOLLAR_SPAN _ eq_refl (findall_group_nil H)
                  before (("$"%char :: c ++ ["$"%char]) ++ rest) eq_refl
                  ltac:(discriminate)) as Hnone.
    cbn [app] in Hnone. rewrite <- app_assoc in Hnone. cbn [app] in Hnone.
    rewrite (dollar_span_match rest Hd Hn) in Hnone. discriminate.
  - intros H. destruct (findall_group DOLLAR_SPAN w) as [|c l] eqn:E; [reflexivity|].
    exfalso. apply H. exists c.
    destruct (@dollar_span_content w c) as (Hocc & Hd & Hn); [rewrite E; now left|].
    auto.
Qed.

Lemma star_greedy_total (A : Type) (p : ascii -> bool) (k : str -> option A) (s : str) :
  (forall t, k t <> None) -> star_greedy p k s <> None.
Proof.
  intros Hk. induction s as [|c s IH]; simpl; [apply Hk|].
  destruct (p c); [|apply Hk].
  destruct (star_greedy p k s); [discriminate|apply Hk].
Qed.

Lemma number_at_digit (x : ascii) (rest : str) :
  digit x = true -> match_at NUMBER (x :: rest) <> None.
Proof.
  intros Hx. unfold match_at, NUMBER. cbn [run].
  match goal with |- context [match ?e with Some a => Some a | None => _ end] =>
    destruct e; [discriminate|] end.
  rewrite Hx. apply star_greedy_total. discriminate.
Qed.

Lemma number_has_digit (t : str) : matches NUMBER t -> exists x, In x t /\ digit x = true.
Proof.
  assert (Hne : forall w, w <> [] -> forallb digit w = true ->
                          exists x, In x w /\ digit x = true).
  { intros [|x w] Hw Hd; [congruence|]. simpl in Hd.
    apply andb_true_iff in Hd as [Hx _]. exists x. split; [now left|exact Hx]. }
  simpl. intros [(w1 & w2 & -> & _ & w3 & w4 & -> & _ & w5 & w6 & -> & _ & Hw6 & Hd)
                |[Ht Hd]].
  - destruct (Hne _ Hw6 Hd) as (x & Hx & Hdx). exists x. split; [|exact Hdx].
    apply in_or_app. right. apply in_or_app. right. apply in_or_app. now right.
  - now apply Hne.
Qed.

(** A numeric token is found if and only if the text holds a decimal
    digit. *)
Lemma numbers_nil (w : str) :
  findall NUMBER w = [] <-> (forall x, In x w -> digit x = false).
Proof.
  split.
  - intros H x Hx. destruct (digit x) eqn:Hd; [|reflexivity]. exfalso.
    apply in_split in Hx as (before & rest & ->).
    apply (@number_at_digit x rest Hd).
    exact (@scan_all_skipped NUMBER _ eq_refl (findall_nil H) before (x :: rest) eq_refl
             ltac:(discriminate)).
  - intros H. destruct (findall NUMBER w) as [|t l] eqn:E; [reflexivity|]. exfalso.
    assert (Ht : In t (findall NUMBER w)) by (rewrite E; now left).
    destruct (number_has_digit (findall_matches Ht)) as (x & Hx & Hd).
    destruct (findall_occurs Ht) as (before & rest & Hw).
    rewrite (H x) in Hd; [discriminate|].
    rewrite Hw. apply in_or_app. right. apply in_or_app. now left.
Qed.

Lemma digit_or_none (w : str) :
  (exists x, In x w /\ digit x = true) \/ (forall x, In x w -> digit x = false).
Proof.
  destruct (existsb digit w) eqn:E.
  - left. now apply existsb_exists.
  - right. intros x Hx. destruct (digit x) eqn:Hd; [|reflexivity].
    assert (existsb digit w = true) by (apply existsb_exists; now exists x).
    congruence.
Qed.

End Branches.

(** X10. The branch the locator takes is decided by the working text alone:
    the dollar branch if and only if it holds two dollars with neither a
    dollar nor a newline between them; else the number branch if and only if
    it holds a decimal digit; else the fallback. *)
Theorem locate_branch (pred : str) :
  ((exists c, locate pred = Dollar c) <-> dollar_pair (working_text pred))
  /\ ((exists t, locate pred = Number t) <->
      ~ dollar_pair (working_text pred)
      /\ exists x, In x (working_text pred) /\ digit x = true)
  /\ (locate pred = Raw (working_text pred) <->
      ~ dollar_pair (working_text pred)
      /\ forall x, In x (working_text pred) -> digit x = false).
Proof.
  unfold locate. cbv zeta. set (w := working_text pred).
  pose proof (dollar_spans_nil w) as Hd. pose proof (numbers_nil w) as Hn.
  destruct (findall_group DOLLAR_SPAN w) as [|c spans] eqn:Ed.
  - assert (Hnd : ~ dollar_pair w) by now apply Hd.
    destruct (findall NUMBER w) as [|t tokens] eqn:En.
    + assert (Hno : forall x, In x w -> digit x = false) by now apply Hn.
      split; [|split]; split.
      * intros [? ?]; discriminate.
      * intros H. contradiction.
      * intros [? ?]; discriminate.
      * intros [_ (x & Hx & Hdx)]. rewrite (Hno x Hx) in Hdx. discriminate.
      * auto.
      * reflexivity.
    + assert (Hsome : exists x, In x w /\ digit x = true).
      { destruct (digit_or_none w) as [H|H]; [exact H|].
        apply Hn in H. discriminate. }
      split; [|split]; split.
      * intros [? ?]; discriminate.
      * intros H. contradiction.
      * auto.
      * intros _. now exists (List.last (t :: tokens) []).
      * discriminate.
      * intros [_ Hall]. destruct Hsome as (x & Hx & Hdx).
        rewrite (Hall x Hx) in Hdx. discriminate.
  - assert (Hdp : dollar_pair w).
    { destruct (@dollar_span_content w c) as (Hocc & Hc1 & Hc2); [rewrite Ed; now left|].
      now exists c. }
    split; [|split]; split.
    + auto.
    + intros _. now exists (List.last (c :: spans) []).
    + intros [? ?]; discriminate.
    + intros [H _]. contradiction.
    + discriminate.
    + intros [H _]. contradiction.
Qed.

Lemma locate_branch_witness :
  (exists c, locate (lit "so x is $5$ or 6") = Dollar c)
  /\ locate (lit "no answer") = Raw (working_text (lit "no answer")).
Proof.
  split.
  - apply (proj1 (locate_branch (lit "so x is $5$ or 6"))).
    exists (lit "5"). repeat split; [simpl; intuition discriminate ..|].
    now exists (lit "so x is "), (lit " or 6").
  - apply (proj2 (proj2 (locate_branch (lit "no answer")))). split.
    + apply dollar_spans_nil. reflexivity.
    + apply numbers_nil. reflexivity.
Defined.

(** X11. The candidate is always a part of the prediction: the locator cuts
    the text and never writes any. *)
Theorem candidate_occurs (pred : str) : occurs (selected (locate pred)) pred.
Proof.
  assert (Hw : occurs (working_text pred) pred).
  { destruct (working_text_cases pred) as [(a & b & -> & _ & ->)|[_ ->]].
    - apply occurs_app_r, occurs_app_r, strip_occurs.
    - apply occurs_refl. }
  apply occurs_trans with (b := working_text pred); [|exact Hw].
  unfold locate. cbv zeta.
  destruct (findall_group DOLLAR_SPAN (working_text pred)) as [|c spans] eqn:Ed.
  - destruct (findall NUMBER (working_text pred)) as [|t tokens] eqn:En.
    + apply occurs_refl.
    + cbn [selected]. apply (@findall_occurs NUMBER). rewrite En.
      apply (@last_In (t :: tokens)). discriminate.
  - cbn [selected].
    destruct (@dollar_span_content (working_text pred) (List.last (c :: spans) []))
      as (Hocc & _ & _).
    + rewrite Ed. apply (@last_In (c :: spans)). discriminate.
    + refine (occurs_trans _ Hocc). exists ["$"%char], ["$"%char]. reflexivity.
Qed.

Lemma candidate_occurs_witness :
  occurs (selected (locate (lit "Thus The answer is  $x+1$ "))) (lit "Thus The answer is  $x+1$ ").
Proof. apply candidate_occurs. Defined.

(** ** The extreme scores *)

Section Extremes.

Lemma filter_length_all (B : Type) (f : B -> bool) (l : list B) :
  length (filter f l) = length l <-> forallb f l = true.
Proof.
  induction l as [|b l IH]; simpl; [tauto|].
  pose proof (filter_length_le f l) as Hle.
  destruct (f b); simpl.
  - rewrite <- IH. split; [now intros [= ->]|now intros ->].
  - split; [lia|discriminate].
Qed.

Lemma filter_length_none (B : Type) (f : B -> bool) (l : list B) :
  length (filter f l) = 0 <-> forallb (fun b => negb (f b)) l = true.
Proof.
  induction l as [|b l IH]; simpl; [tauto|].
  destruct (f b); simpl; [split; discriminate|exact IH].
Qed.

Lemma pos_of_length (B : Type) (l : list B) :
  l <> [] -> Z.pos (Pos.of_nat (length l)) = Z.of_nat (length l).
Proof.
  intros H. rewrite <- positive_nat_Z, Nat2Pos.id; [reflexivity|].
  destruct l; simpl; congruence.
Qed.

End Extremes.

(** X12. For two collections of strings of the same length, not empty, the
    score is 1 exactly when every prediction is the same array item as its
    reference, and 0 exactly when none is. *)
Theorem score_extremes (preds refs : list str) :
  length preds = length refs -> preds <> [] ->
  exists q,
    score preds (map Some refs) = Some (Np.Num q)
    /\ ((q == 1)%Q <->
        forallb (fun pr => same_item (fst pr) (snd pr)) (combine preds refs) = true)
    /\ ((q == 0)%Q <->
        forallb (fun pr => negb (same_item (fst pr) (snd pr))) (combine preds refs) = true).
Proof.
  intros Hlen Hne.
  exists (Z.of_nat (equal_pairs preds refs) # Pos.of_nat (length preds))%Q.
  assert (Hcomb : length (combine preds refs) = length preds).
  { rewrite length_combine. lia. }
  split; [|split].
  - rewrite (score_same_length Hlen). unfold Np.mean, equal_pairs.
    rewrite count_true_map, length_map, Hcomb.
    destruct preds as [|p preds]; [congruence|].
    destruct refs as [|r refs]; [discriminate|]. reflexivity.
  - unfold Qeq. cbn [Qnum Qden]. rewrite Z.mul_1_r, Z.mul_1_l, (pos_of_length Hne).
    rewrite Nat2Z.inj_iff. unfold equal_pairs. rewrite <- Hcomb.
    apply filter_length_all.
  - unfold Qeq. cbn [Qnum Qden]. rewrite Z.mul_1_r, Z.mul_0_l.
    change 0%Z with (Z.of_nat 0). rewrite Nat2Z.inj_iff. unfold equal_pairs.
    apply filter_length_none.
Qed.

Lemma score_extremes_witness :
  exists q,
    score [lit "4"; lit "7"] (map Some [lit "4"; lit "7"]) = Some (Np.Num q)
    /\ ((q == 1)%Q <->
        forallb (fun pr => same_item (fst pr) (snd pr))
                (combine [lit "4"; lit "7"] [lit "4"; lit "7"]) = true)
    /\ ((q == 0)%Q <->
        forallb (fun pr => negb (same_item (fst pr) (snd pr)))
                (combine [lit "4"; lit "7"] [lit "4"; lit "7"]) = true).
Proof.
  apply (@score_extremes [lit "4"; lit "7"] [lit "4"; lit "7"]);
    [reflexivity|discriminate].
Defined.

(** ** Items without a marker *)

Section Unmarked.

Lemma extract_some_contains (text : str) :
  (match extract_inner_content text with Some _ => true | None => false end)
  = Py.contains BOXED text.
Proof.
  unfold extract_inner_content, Py.contains. now destruct (Py.find BOXED text).
Qed.

Lemma marked_bound (u : bool) (preds : list str) :
  forall data : list instance,
    Np.count_true (map (fun pr => Np.item_eq u (fst pr) (snd pr))
                       (combine preds (references data)))
    <= length (filter (fun item => Py.contains BOXED (solution item)) data).
Proof.
  unfold Np.count_true.
  induction preds as [|p preds IH]; intros [|item data]; simpl; try lia.
  rewrite <- extract_some_contains.
  specialize (IH data). unfold references in *.
  destruct (extract_inner_content (solution item)) as [r|].
  - destruct (Np.item_eq u p (Some r)); cbn [length]; lia.
  - cbn [Np.item_eq]. exact IH.
Qed.

End Unmarked.

(** X13. An item whose solution has no marker has no reference, and no
    prediction is right for it: with as many predictions as items, the
    number of right answers is at most the number of items whose solution
    holds the marker. *)
Theorem unmarked_items_are_wrong (evaluation_data : list instance) (predictions : list str) :
  length predictions = length evaluation_data -> evaluation_data <> [] ->
  exists k,
    calculate_metric evaluation_data predictions
    = Some (Np.Num (Z.of_nat k # Pos.of_nat (length evaluation_data)))
    /\ k <= length (filter (fun item => Py.contains BOXED (solution item))
                           evaluation_data).
Proof.
  intros Hlen Hne. unfold calculate_metric, score, Np.equal, answer_cleansing.
  assert (E : length (map cleanse predictions) = length (references evaluation_data)).
  { unfold references. now rewrite !length_map. }
  rewrite E, Nat.eqb_refl. cbn [option_map].
  set (bs := map _ (combine _ _)).
  exists (Np.count_true bs). split.
  - assert (Hbs : length bs = length evaluation_data).
    { unfold bs. rewrite length_map, length_combine, E. unfold references.
      rewrite length_map. lia. }
    unfold Np.mean. destruct bs as [|b bs'] eqn:Ebs.
    + destruct evaluation_data; [congruence|discriminate].
    + now rewrite Hbs.
  - apply marked_bound.
Qed.

Lemma unmarked_items_are_wrong_witness :
  exists k,
    calculate_metric
      [ {| problem := lit "a"; solution := lit "four, of course" |};
        {| problem := lit "b"; solution := lit "\boxed{7}" |} ]
      [ lit "four, of course"; lit "$7$" ]
    = Some (Np.Num (Z.of_nat k # Pos.of_nat 2))
    /\ k <= 1.
Proof.
  apply (@unmarked_items_are_wrong
           [ {| problem := lit "a"; solution := lit "four, of course" |};
             {| problem := lit "b"; solution := lit "\boxed{7}" |} ]
           [ lit "four, of course"; lit "$7$" ]); [reflexivity|discriminate].
Defined.

(** ** The lists of model names *)

(** X14. The lists of OpenAI models are consistent: every instruction model
    is an OpenAI model, no name is listed twice, no model is both a
    completion and a chat model, and no Anthropic model is an OpenAI
    model. *)
Theorem model_lists_consistent :
  incl Enum.OPENAI_INSTRUCTION_MODELS Enum.OPENAI_MODELS
  /\ NoDup Enum.OPENAI_MODELS
  /\ (forall m, In m Enum.OPENAI_COMPLETION_MODELS -> ~ In m Enum.OPENAI_CHAT_MODELS)
  /\ (forall m, In m Enum.ANTHROPIC_MODELS -> ~ In m Enum.OPENAI_MODELS).
Proof.
  assert (Hnd : NoDup Enum.OPENAI_MODELS).
  { apply (NoDup_count_occ' string_dec). intros m Hm.
    simpl in Hm. repeat destruct Hm as [<-|Hm]; try reflexivity. contradiction. }
  split; [|split; [exact Hnd|split]].
  - unfold Enum.OPENAI_INSTRUCTION_MODELS, Enum.OPENAI_MODELS.
    intros m Hm. apply in_or_app. apply in_app_or in Hm as [[<-|[]]|Hm].
    + left. simpl. tauto.
    + now right.
  - intros m Hm Hc. unfold Enum.OPENAI_MODELS in Hnd.
    apply NoDup_app_remove_l in Hnd as Hchat.
    clear Hchat. revert Hnd Hm Hc. generalize Enum.OPENAI_CHAT_MODELS as l2.
    generalize Enum.OPENAI_COMPLETION_MODELS as l1.
    induction l1 as [|x l1 IH]; intros l2 Hnd Hm Hc; [contradiction|].
    inversion Hnd as [|? ? Hx Hnd']; subst. destruct Hm as [->|Hm].
    + apply Hx, in_or_app. now right.
    + eauto.
  - intros m Hm Hc. simpl in Hm, Hc.
    repeat destruct Hm as [<-|Hm]; try contradiction;
      repeat destruct Hc as [Hc|Hc]; try discriminate Hc; try contradiction.
Qed.

Lemma model_lists_consistent_witness :
  In "gpt-4"%string Enum.OPENAI_MODELS /\ ~ In "babbage-002"%string Enum.OPENAI_CHAT_MODELS.
Proof.
  split.
  - apply (proj1 model_lists_consistent). simpl. tauto.
  - apply (proj1 (proj2 (proj2 model_lists_consistent))). simpl. tauto.
Defined.

(** ** The shape of a numeric candidate *)

(** X15. A numeric candidate is either a run of decimal digits, without any
    sign, or a decimal: an optional sign, digits or none, a point, and at
    least one digit.  A sign is kept only before a decimal. *)
Theorem number_candidate_shape (pred t : str) :
  locate pred = Number t ->
  (t <> [] /\ forallb digit t = true)
  \/ (exists sg int frac,
        t = sg ++ int ++ "."%char :: frac
        /\ (sg = [] \/ sg = ["-"%char] \/ sg = ["+"%char])
        /\ forallb digit int = true
        /\ frac <> [] /\ forallb digit frac = true).
Proof.
  unfold locate. cbv zeta.
  destruct (findall_group DOLLAR_SPAN (working_text pred)); [|discriminate].
  destruct (findall NUMBER (working_text pred)) as [|n ns] eqn:En; [discriminate|].
  intros [= Ht0].
  assert (Hin : In t (findall NUMBER (working_text pred))).
  { rewrite En, <- Ht0. apply (@last_In (n :: ns)). discriminate. }
  apply findall_matches in Hin. clear Ht0. simpl in Hin.
  destruct Hin as [(w1 & w2 & Ht & Hsg & w3 & w4 & -> & Hint & w5 & w6 & -> & -> & Hne & Hfr)
                  |[Hne Hd]].
  - right. exists w1, w3, w6. split; [exact Ht|]. repeat split; auto.
    destruct Hsg as [->|(x & -> & Hx)]; [now left|right].
    unfold sign in Hx. apply orb_true_iff in Hx as [Hx|Hx];
      apply Ascii.eqb_eq in Hx; subst; auto.
  - now left.
Qed.

Lemma number_candidate_shape_witness :
  (lit "5" <> [] /\ forallb digit (lit "5") = true)
  \/ (exists sg int frac,
        lit "5" = sg ++ int ++ "."%char :: frac
        /\ (sg = [] \/ sg = ["-"%char] \/ sg = ["+"%char])
        /\ forallb digit int = true
        /\ frac <> [] /\ forallb digit frac = true).
Proof.
  apply (@number_candidate_shape (lit "The answer is -5") (lit "5")). reflexivity.
Defined.

(** ** Formatting an item whose box is not closed *)

Section OpenBox.

Lemma depth_after_app (a b : str) :
  forall d,
    depth_after d (a ++ b)
    = match depth_after d a with
      | Some d' => depth_after d' b
      | None => None
      end.
Proof.
  induction a as [|c a IH]; intros d; simpl; [reflexivity|].
  destruct (brace_step d c); [reflexivity|apply IH].
Qed.

Lemma brace_step_raise (d e : nat) (c : ascii) :
  0 < d -> brace_step d c <> 0 -> brace_step (d + e) c = brace_step d c + e.
Proof.
  unfold brace_step. intros Hd H.
  destruct (Ascii.eqb c "{"%char); [lia|].
  destruct (Ascii.eqb c "}"%char); lia.
Qed.

(** A text along which the depth stays positive keeps it positive from any
    greater depth. *)
Lemma depth_after_raise (s : str) :
  forall d d' e,
    0 < d -> depth_after d s = Some d' -> depth_after (d + e) s = Some (d' + e).
Proof.
  induction s as [|c s IH]; intros d d' e Hd H; simpl in *.
  - now injection H as <-.
  - destruct (brace_step d c) as [|n] eqn:E; [discriminate|].
    rewrite (@brace_step_raise d e c Hd) by lia. rewrite E. cbn [Nat.add].
    change (S (n + e)) with (S n + e). apply IH; [lia|exact H].
Qed.

Lemma depth_after_prefix (a b : str) (d d' : nat) :
  depth_after d (a ++ b) = Some d' -> exists d1, depth_after d a = Some d1.
Proof.
  rewrite depth_after_app. destruct (depth_after d a) as [d1|]; [|discriminate].
  now exists d1.
Qed.

Lemma removelast_prefix (s : str) : exists l, s = removelast s ++ l.
Proof.
  destruct s as [|x s] using rev_ind; [now exists []|].
  rewrite removelast_last. now exists [x].
Qed.

Lemma depth_after_no_brace (s : str) (d : nat) :
  forallb (fun c => negb (Ascii.eqb c "{"%char || Ascii.eqb c "}"%char)) s = true ->
  0 < d -> depth_after d s = Some d.
Proof.
  induction s as [|c s IH]; intros Hs Hd; [reflexivity|].
  simpl in Hs. apply andb_true_iff in Hs as [Hc Hs].
  apply negb_true_iff, orb_false_iff in Hc as [Ho Hc].
  simpl. unfold brace_step. rewrite Ho, Hc.
  destruct d as [|d]; [lia|]. now apply IH.
Qed.

End OpenBox.

Section OpenBoxFormat.

Lemma extract_of_open (text : str) (i d : nat) :
  Py.find BOXED text = Some i ->
  depth_after 1 (skipn (i + 7) text) = Some d ->
  extract_inner_content text = Some (removelast (skipn (i + 7) text)).
Proof.
  intros Hfind Hdepth. unfold extract_inner_content, Py.slice. rewrite Hfind. cbv zeta.
  pose proof (@brace_loop_app (skipn (i + 7) text) [] 1 d (i + 7) Nat.lt_0_1 Hdepth) as H.
  rewrite app_nil_r in H. rewrite H.
  assert (0 < d) by (eapply depth_after_pos; [|exact Hdepth]; lia).
  destruct d as [|d]; [lia|]. cbn [brace_loop].
  rewrite removelast_firstn_len. do 2 f_equal. lia.
Qed.

End OpenBoxFormat.

(** X16. Formatting an item whose box is never closed changes its
    reference.  Before the call the reference is the text after the marker
    less its last character; the call appends the answer line to the
    solution, and the extractor then runs into it: the reference becomes the
    whole text after the marker, followed by the answer line up to the old
    reference. *)
Theorem format_open_box (item : instance) (i d : nat) :
  Py.find BOXED (solution item) = Some i ->
  depth_after 1 (skipn (i + 7) (solution item)) = Some d ->
  extract_inner_content (solution item)
  = Some (removelast (skipn (i + 7) (solution item)))
  /\ extract_inner_content (solution (fst (format_instance item)))
     = Some (skipn (i + 7) (solution item)
             ++ (newline :: lit "The answer is $")
             ++ removelast (skipn (i + 7) (solution item))).
Proof.
  intros Hfind Hdepth.
  pose proof (extract_of_open Hfind Hdepth) as Hold. split; [exact Hold|].
  unfold format_instance. cbn [fst solution problem]. rewrite Hold. cbn [str_of].
  destruct (find_from_first Hfind) as (pre & post & Hsol & Hi & _).
  simpl in Hi. subst i. rewrite Hsol in *. rewrite skipn_marker in *.
  set (tail := (newline :: lit "The answer is $") ++ removelast post ++ lit "$").
  assert (Hfind' : Py.find BOXED (lit " " ++ (pre ++ BOXED ++ post) ++ tail)
                   = Some (S (length pre))).
  { unfold Py.find in *. cbn [lit list_ascii_of_string app Py.find_from].
    change (Py.starts_with BOXED (" "%char :: (pre ++ BOXED ++ post) ++ tail)) with false.
    cbv iota. now rewrite find_from_shift, (find_from_app tail Hfind). }
  assert (Hskip : skipn (S (length pre) + 7) (lit " " ++ (pre ++ BOXED ++ post) ++ tail)
                  = post ++ tail).
  { cbn [lit list_ascii_of_string app Nat.add skipn].
    rewrite <- !app_assoc. apply skipn_marker. }
  assert (Hd : 0 < d) by (eapply depth_after_pos; [|exact Hdepth]; lia).
  assert (Hdepth' : exists d', depth_after 1 (post ++ tail) = Some d').
  { rewrite depth_after_app, Hdepth. unfold tail.
    rewrite depth_after_app,
      (@depth_after_no_brace (newline :: lit "The answer is $") d eq_refl Hd).
    destruct (removelast_prefix post) as [l Hl].
    rewrite Hl in Hdepth. destruct (depth_after_prefix Hdepth) as [d1 Hd1].
    rewrite depth_after_app.
    assert (Hr : depth_after d (removelast post) = Some (d1 + (d - 1))).
    { pose proof (@depth_after_raise _ 1 d1 (d - 1) Nat.lt_0_1 Hd1) as Hr.
      replace (1 + (d - 1)) with d in Hr by lia. exact Hr. }
    rewrite Hr.
    assert (0 < d1) by (eapply depth_after_pos; [|exact Hd1]; lia).
    exists (d1 + (d - 1)). apply depth_after_no_brace; [reflexivity|lia]. }
  destruct Hdepth' as [d' Hdepth'].
  rewrite <- Hskip in Hdepth'.
  rewrite (extract_of_open Hfind' Hdepth'), Hskip. f_equal.
  unfold tail. change (lit "$") with ["$"%char].
  rewrite !app_assoc, removelast_last. now rewrite <- !app_assoc.
Qed.

Lemma format_open_box_witness :
  extract_inner_content (lit "so \boxed{5") = Some (lit "")
  /\ extract_inner_content
       (solution (fst (format_instance
          {| problem := lit "p"; solution := lit "so \boxed{5" |})))
     = Some (lit "5" ++ (newline :: lit "The answer is $") ++ lit "").
Proof.
  apply (@format_open_box {| problem := lit "p"; solution := lit "so \boxed{5" |} 3 1);
    reflexivity.
Defined.

(** ** A boxed number *)

Section BoxedNumber.

Variable P : ascii -> bool.

Lemma replace_outside (old new s : str) :
  forallb P s = true -> existsb (fun c => negb (P c)) old = true ->
  Py.replace old new s = s.
Proof.
  intros Hs Hold. apply existsb_exists in Hold as (c & Hc & Hn).
  apply (replace_absent new Hc). intros Hin.
  rewrite forallb_forall in Hs. rewrite (Hs _ Hin) in Hn. discriminate.
Qed.

Lemma substitute_outside (s : str) :
  forallb (fun ba : str * str => existsb (fun c => negb (P c)) (fst ba))
          SUBSTITUTIONS = true ->
  forallb (existsb (fun c => negb (P c))) REMOVED_EXPRESSIONS = true ->
  forallb P s = true -> substitute s = s.
Proof.
  intros H1 H2 Hs. unfold substitute. rewrite forallb_forall in H1, H2.
  cbv zeta. rewrite (@fold_left_fixed _ _ SUBSTITUTIONS s).
  - apply fold_left_fixed. intros e He. apply replace_outside; auto.
  - intros ba Hba. apply replace_outside; auto.
Qed.

Lemma outside_absent (s : str) (c : ascii) :
  forallb P s = true -> P c = false -> ~ In c s.
Proof.
  intros Hs Hc Hin. rewrite forallb_forall in Hs. rewrite (Hs _ Hin) in Hc. discriminate.
Qed.

End BoxedNumber.

Section BoxedMatch.

Variable A : Type.

(** The greedy repetition takes the whole text and gives back its last
    character when the rest of the pattern asks for it. *)
Lemma star_greedy_last (p : ascii -> bool) (k : str -> option A) (w : str) (y : ascii) (a : A) :
  forallb p w = true -> p y = true ->
  k [] = None -> k [y] = Some a ->
  star_greedy p k (w ++ [y]) = Some a.
Proof.
  intros Hw Hy Hnil Hk. induction w as [|c w IH]; simpl.
  - now rewrite Hy, Hnil.
  - simpl in Hw. apply andb_true_iff in Hw as [Hc Hw]. now rewrite Hc, IH.
Qed.

End BoxedMatch.

Section BoxedSub.

Lemma boxed_match (t : str) :
  forallb dot t = true ->
  exists cs,
    match_at BOXED_WRAPPER (BOXED ++ t ++ ["}"%char]) = Some ([], cs)
    /\ group cs 2 = t.
Proof.
  intros Ht. unfold match_at, BOXED_WRAPPER.
  change (BOXED ++ t ++ ["}"%char])
    with ("\"%char :: "b"%char :: "o"%char :: "x"%char :: "e"%char :: "d"%char
          :: "{"%char :: t ++ ["}"%char]).
  cbn [run word BOXED lit list_ascii_of_string Ascii.eqb Bool.eqb].
  eexists. split.
  - apply star_greedy_last; [exact Ht|reflexivity|reflexivity|].
    cbn [Ascii.eqb Bool.eqb]. reflexivity.
  - cbn [group Nat.eqb]. rewrite length_app. cbn [length].
    replace (length t + 1 - 1) with (length t + 0) by lia.
    now rewrite firstn_app_2, firstn_O, app_nil_r.
Qed.

Lemma boxed_sub (t : str) :
  forallb dot t = true -> sub BOXED_WRAPPER [TGrp 2] (BOXED ++ t ++ ["}"%char]) = t.
Proof.
  intros Ht. destruct (boxed_match Ht) as (cs & Hm & Hg). unfold sub.
  change (BOXED ++ t ++ ["}"%char]) with ("\"%char :: skipn 1 BOXED ++ t ++ ["}"%char]) in *.
  rewrite scan_here, Hm. cbn [length Nat.sub].
  rewrite scan_skip by reflexivity.
  cbn [flat_map expand]. now rewrite Hg, !app_nil_r.
Qed.

End BoxedSub.

(** X17. A number in a box is unwrapped: for every text made of decimal
    digits, signs and points, the normal form of the text between the marker
    and a closing brace is the text itself. *)
Theorem normalize_boxed_number (t : str) :
  forallb numeric_char t = true ->
  normalize_final_answer (BOXED ++ t ++ ["}"%char]) = t.
Proof.
  intros Ht.
  assert (Hbox : forallb boxed_char (BOXED ++ t ++ ["}"%char]) = true).
  { rewrite !forallb_app. rewrite andb_true_iff. split; [reflexivity|].
    rewrite andb_true_iff. split; [|reflexivity].
    eapply forallb_weaken; [|exact Ht]. intros c Hc. unfold boxed_char. now rewrite Hc. }
  assert (Hdot : forallb dot t = true).
  { eapply forallb_weaken; [|exact Ht]. intros c Hc. unfold dot.
    destruct (Ascii.eqb_spec c newline) as [->|]; [discriminate Hc|reflexivity]. }
  unfold normalize_final_answer.
  rewrite after_equals_absent by (apply (outside_absent Hbox); reflexivity).
  rewrite (@substitute_outside boxed_char _ eq_refl eq_refl Hbox).
  unfold unwrap. cbv zeta.
  rewrite (@sub_absent "$"%char FIRST_MATH), (@sub_absent "t"%char (WRAPPER "\text{")),
    (@sub_absent "t"%char (WRAPPER "\textbf{")),
    (@sub_absent "v"%char (WRAPPER "\overline{"));
    try reflexivity; try (apply (outside_absent Hbox); reflexivity).
  rewrite (boxed_sub Hdot).
  assert (Hplain : forallb plain_char t = true).
  { eapply forallb_weaken; [|exact Ht]. apply numeric_plain. }
  rewrite (@sub_absent "f"%char FRAC_SHORT), (@sub_absent "s"%char SQRT_SHORT);
    try reflexivity; try (apply (plain_absent Hplain); reflexivity).
  rewrite (@replace_absent _ _ _ "$"%char);
    [|now left|apply (plain_absent Hplain); reflexivity].
  apply strip_commas_absent. intros Hin. rewrite forallb_forall in Ht.
  now apply (numeric_not_comma (Ht _ Hin)).
Qed.

Lemma normalize_boxed_number_witness :
  normalize_final_answer (BOXED ++ lit "-12.5" ++ ["}"%char]) = lit "-12.5".
Proof. apply (@normalize_boxed_number (lit "-12.5")). reflexivity. Defined.

(** ** Shorthand fractions and roots *)

Section Shorthand.

Lemma digit_not_lbrace (a : ascii) : digit a = true -> not_lbrace a = true.
Proof.
  intros H. unfold not_lbrace.
  destruct (Ascii.eqb_spec a "{"%char) as [->|]; [discriminate H|reflexivity].
Qed.

Lemma digit_dot (a : ascii) : digit a = true -> dot a = true.
Proof.
  intros H. unfold dot.
  destruct (Ascii.eqb_spec a newline) as [->|]; [discriminate H|reflexivity].
Qed.

Lemma digits_absent (rest : str) (c : ascii) :
  forallb digit rest = true -> digit c = false -> ~ In c rest.
Proof.
  intros Hr Hc Hin. rewrite forallb_forall in Hr. rewrite (Hr _ Hin) in Hc. discriminate.
Qed.

Lemma frac_match (a b : ascii) (rest : str) :
  digit a = true -> digit b = true ->
  match_at FRAC_SHORT (lit "frac" ++ a :: b :: rest)
  = Some (rest, [(3, [b]); (2, [a]); (1, lit "frac")]).
Proof.
  intros Ha Hb. unfold match_at, FRAC_SHORT.
  cbn [run word lit list_ascii_of_string app Ascii.eqb Bool.eqb].
  rewrite (digit_not_lbrace Ha), (digit_dot Hb). cbn [length].
  replace (S (length rest) - length rest) with 1 by lia.
  replace (S (S (length rest)) - S (length rest)) with 1 by lia.
  replace (S (S (S (S (S (S (length rest)))))) - S (S (length rest))) with 4 by lia.
  reflexivity.
Qed.

Lemma sqrt_match (a : ascii) (rest : str) :
  digit a = true ->
  match_at SQRT_SHORT (lit "sqrt" ++ a :: rest) = Some (rest, [(2, [a]); (1, lit "sqrt")]).
Proof.
  intros Ha. unfold match_at, SQRT_SHORT.
  cbn [run word lit list_ascii_of_string app Ascii.eqb Bool.eqb].
  rewrite (digit_not_lbrace Ha). cbn [length].
  replace (S (length rest) - length rest) with 1 by lia.
  replace (S (S (S (S (S (length rest))))) - S (length rest)) with 4 by lia.
  reflexivity.
Qed.

Lemma flat_skipped (g : str -> caps -> str) (s : str) :
  flat_map (fun p => match p with Skipped c => [c] | Matched w cs => g w cs end)
           (map Skipped s) = s.
Proof. induction s as [|x s IH]; simpl; [reflexivity|]. now rewrite IH. Qed.

Lemma frac_sub (a b : ascii) (rest : str) :
  digit a = true -> digit b = true -> forallb digit rest = true ->
  sub FRAC_SHORT [TLit (lit "frac{"); TGrp 2; TLit (lit "}{"); TGrp 3; TLit (lit "}")]
      (lit "\frac" ++ a :: b :: rest)
  = lit "\frac{" ++ a :: lit "}{" ++ b :: "}"%char :: rest.
Proof.
  intros Ha Hb Hr. unfold sub.
  change (lit "\frac" ++ a :: b :: rest)
    with ("\"%char :: "f"%char :: lit "rac" ++ a :: b :: rest).
  rewrite scan_here.
  change (match_at FRAC_SHORT ("\"%char :: "f"%char :: lit "rac" ++ a :: b :: rest))
    with (@None (str * caps)).
  rewrite scan_here.
  change ("f"%char :: lit "rac" ++ a :: b :: rest) with (lit "frac" ++ a :: b :: rest).
  rewrite (frac_match rest Ha Hb).
  replace (length (lit "frac" ++ a :: b :: rest) - length rest) with 6
    by (cbn [lit list_ascii_of_string app length]; lia).
  cbn [lit list_ascii_of_string app scan firstn].
  rewrite (@scan_absent "f"%char FRAC_SHORT rest eq_refl)
    by (apply (digits_absent Hr); reflexivity).
  cbn [flat_map]. rewrite flat_skipped. reflexivity.
Qed.

Lemma sqrt_sub (a : ascii) (rest : str) :
  digit a = true -> forallb digit rest = true ->
  sub SQRT_SHORT [TLit (lit "sqrt{"); TGrp 2; TLit (lit "}")] (lit "\sqrt" ++ a :: rest)
  = lit "\sqrt{" ++ a :: "}"%char :: rest.
Proof.
  intros Ha Hr. unfold sub.
  change (lit "\sqrt" ++ a :: rest) with ("\"%char :: "s"%char :: lit "qrt" ++ a :: rest).
  rewrite scan_here.
  change (match_at SQRT_SHORT ("\"%char :: "s"%char :: lit "qrt" ++ a :: rest))
    with (@None (str * caps)).
  rewrite scan_here.
  change ("s"%char :: lit "qrt" ++ a :: rest) with (lit "sqrt" ++ a :: rest).
  rewrite (sqrt_match rest Ha).
  replace (length (lit "sqrt" ++ a :: rest) - length rest) with 5
    by (cbn [lit list_ascii_of_string app length]; lia).
  cbn [lit list_ascii_of_string app scan firstn].
  rewrite (@scan_absent "s"%char SQRT_SHORT rest eq_refl)
    by (apply (digits_absent Hr); reflexivity).
  cbn [flat_map]. rewrite flat_skipped. reflexivity.
Qed.

End Shorthand.

(** X18. The shorthand the comments of the source describe.  For decimal
    digits [a] and [b] followed by decimal digits, [\fracab] becomes
    [\frac{a}{b}] and [\sqrta] becomes [\sqrt{a}]: only the first two
    characters after [\frac], and the first one after [\sqrt], are put in
    braces, and what follows them stays as it is. *)
Theorem normalize_shorthand_digits (a b : ascii) (rest : str) :
  digit a = true -> digit b = true -> forallb digit rest = true ->
  normalize_final_answer (lit "\frac" ++ a :: b :: rest)
  = lit "\frac{" ++ a :: lit "}{" ++ b :: "}"%char :: rest
  /\ normalize_final_answer (lit "\sqrt" ++ a :: rest)
     = lit "\sqrt{" ++ a :: "}"%char :: rest.
Proof.
  intros Ha Hb Hr.
  assert (Hfa : frac_char a = true) by (unfold frac_char; now rewrite Ha).
  assert (Hfb : frac_char b = true) by (unfold frac_char; now rewrite Hb).
  assert (Hsa : sqrt_char a = true) by (unfold sqrt_char; now rewrite Ha).
  assert (Hfr : forallb frac_char rest = true).
  { eapply forallb_weaken; [|exact Hr]. intros c Hc. unfold frac_char. now rewrite Hc. }
  assert (Hsr : forallb sqrt_char rest = true).
  { eapply forallb_weaken; [|exact Hr]. intros c Hc. unfold sqrt_char. now rewrite Hc. }
  split.
  - assert (Hin : forallb frac_char (lit "\frac" ++ a :: b :: rest) = true).
    { cbn [forallb lit list_ascii_of_string app]. now rewrite Hfa, Hfb, Hfr. }
    assert (Hout : forallb frac_char
                     (lit "\frac{" ++ a :: lit "}{" ++ b :: "}"%char :: rest) = true).
    { cbn [forallb lit list_ascii_of_string app]. now rewrite Hfa, Hfb, Hfr. }
    unfold normalize_final_answer.
    rewrite after_equals_absent by (apply (outside_absent Hin); reflexivity).
    rewrite (@substitute_outside frac_char _ eq_refl eq_refl Hin).
    unfold unwrap. cbv zeta.
    rewrite (@sub_absent "$"%char FIRST_MATH), (@sub_absent "e"%char (WRAPPER "\text{")),
      (@sub_absent "e"%char (WRAPPER "\textbf{")),
      (@sub_absent "e"%char (WRAPPER "\overline{")),
      (@sub_absent "e"%char BOXED_WRAPPER);
      try reflexivity; try (apply (outside_absent Hin); reflexivity).
    rewrite (frac_sub Ha Hb Hr).
    rewrite (@sub_absent "s"%char SQRT_SHORT);
      [|reflexivity|apply (outside_absent Hout); reflexivity].
    rewrite (@replace_absent _ _ _ "$"%char);
      [|now left|apply (outside_absent Hout); reflexivity].
    apply strip_commas_absent. apply (outside_absent Hout). reflexivity.
  - assert (Hin : forallb sqrt_char (lit "\sqrt" ++ a :: rest) = true).
    { cbn [forallb lit list_ascii_of_string app]. now rewrite Hsa, Hsr. }
    assert (Hout : forallb sqrt_char (lit "\sqrt{" ++ a :: "}"%char :: rest) = true).
    { cbn [forallb lit list_ascii_of_string app]. now rewrite Hsa, Hsr. }
    unfold normalize_final_answer.
    rewrite after_equals_absent by (apply (outside_absent Hin); reflexivity).
    rewrite (@substitute_outside sqrt_char _ eq_refl eq_refl Hin).
    unfold unwrap. cbv zeta.
    rewrite (@sub_absent "$"%char FIRST_MATH), (@sub_absent "e"%char (WRAPPER "\text{")),
      (@sub_absent "e"%char (WRAPPER "\textbf{")),
      (@sub_absent "e"%char (WRAPPER "\overline{")),
      (@sub_absent "e"%char BOXED_WRAPPER), (@sub_absent "f"%char FRAC_SHORT);
      try reflexivity; try (apply (outside_absent Hin); reflexivity).
    rewrite (sqrt_sub Ha Hr).
    rewrite (@replace_absent _ _ _ "$"%char);
      [|now left|apply (outside_absent Hout); reflexivity].
    apply strip_commas_absent. apply (outside_absent Hout). reflexivity.
Qed.

Lemma normalize_shorthand_digits_witness :
  normalize_final_answer (lit "\frac" ++ "1"%char :: "2"%char :: lit "5")
  = lit "\frac{" ++ "1"%char :: lit "}{" ++ "2"%char :: "}"%char :: lit "5"
  /\ normalize_final_answer (lit "\sqrt" ++ "1"%char :: lit "5")
     = lit "\sqrt{" ++ "1"%char :: "}"%char :: lit "5".
Proof.
  apply (@normalize_shorthand_digits "1"%char "2"%char (lit "5")); reflexivity.
Defined.

(** ** Worked examples *)

Section Examples.

Example extract_5 : extract_inner_content (lit "so \boxed{5}.") = Some (lit "5").
Proof. reflexivity. Qed.

Example extract_no_marker : extract_inner_content (lit "no marker here") = None.
Proof. reflexivity. Qed.

Example normalize_thousands : normalize_final_answer (lit "3,000") = lit "3000".
Proof. reflexivity. Qed.

Example normalize_text_wrapper : normalize_final_answer (lit "\text{3}") = lit "3".
Proof. reflexivity. Qed.

Example normalize_unit : normalize_final_answer (lit "10\text{ dollars}") = lit "10".
Proof. reflexivity. Qed.

Example normalize_shorthand :
  normalize_final_answer (lit "x = \fracab \sqrtab") = lit "\frac{a}{b}\sqrt{a}b".
Proof. reflexivity. Qed.

(** The greedy pass takes the box up to the last closing brace of the line. *)
Example normalize_boxed_greedy :
  normalize_final_answer (lit "\boxed{\text{a}b}c}") = lit "ab}c".
Proof. reflexivity. Qed.

(** The first pass works line by line: the dot does not match a newline. *)
Example normalize_two_lines :
  normalize_final_answer (lit "a$b$c" ++ newline :: lit "d$e$f")
  = lit "b" ++ newline :: lit "e".
Proof. reflexivity. Qed.

Example findall_numbers :
  findall NUMBER (lit "x -5.2 and 1.2.3 +7 3,000")
  = [lit "-5.2"; lit "1.2"; lit ".3"; lit "7"; lit "3"; lit "000"].
Proof. reflexivity. Qed.

Example findall_dollars :
  findall_group DOLLAR_SPAN (lit "a $b$ c $d e$ f$") = [lit "b"; lit "d e"].
Proof. reflexivity. Qed.

Example cleanse_last_answer :
  cleanse (lit "The answer is 3 The answer is   $5$  ") = lit "5".
Proof. reflexivity. Qed.

Example accuracy_all_right :
  score (answer_cleansing [ lit "The answer is $4$"; lit "\boxed{7}";
                            lit "no digits here but 12 is here" ])
        (map Some [lit "4"; lit "7"; lit "12"])
  = Some (Np.Num (3 # 3)).
Proof. reflexivity. Qed.

Example accuracy_all_wrong :
  score (answer_cleansing [lit "$5$"]) (map Some [lit "4"]) = Some (Np.Num (0 # 1)).
Proof. reflexivity. Qed.

End Examples.
